(** * Resilience core of the event service (services/index.js)

    A shallow embedding of the circuit breaker [CB], the retry executor
    [postWithRetry], the [POST /addEvent] handler and the bounded fan-out of
    [GET /getEventsByUserId/:id], with the properties of their
    specification.

    Conventions of the embedding:
    - instants and durations are millisecond counts, modelled as [Z]
      ([Date.now()] is an integer number of milliseconds);
    - [Date.now()] and [Math.random()] are inputs of the operation that
      reads them, so that every operation is a function;
    - the closure variables of [CB] are the fields of a record that is
      threaded through the operations. *)

From Stdlib Require Import ZArith Lia Bool.
From stdpp Require Import base decidable numbers list strings.

Local Open Scope Z_scope.

(** ** Randomness

    [Math.random()] yields a real in [0, 1): a fraction [rnum / rden] with
    [0 <= rnum < rden]. *)

Record Rand : Type := { rnum : Z; rden : Z }.

Definition rand_ok (r : Rand) : Prop := 0 <= rnum r < rden r.

(** [Math.floor(Math.random() * k)] *)
Definition floor_random_times (r : Rand) (k : Z) : Z := (rnum r * k) / rden r.

(** [Math.ceil(x / d)] for integers [x] and [d > 0] *)
Definition ceil_div (x d : Z) : Z := - ((- x) / d).

(** ** The circuit breaker [CB] *)

Module CB.

Inductive State : Type := CLOSED | OPEN | HALF_OPEN.

#[global] Instance State_eq_dec : EqDecision State.
Proof. solve_decision. Defined.

(** The values read from the environment when the module is loaded:
    [CB_COOLDOWN_MS ?? 15000], [CB_WINDOW_MS ?? 30000], [CB_FAILURES ?? 3]. *)
Record Config : Type := {
  baseCooldownMs : Z;
  windowMs : Z;
  maxFailures : Z
}.

Definition defaults : Config :=
  {| baseCooldownMs := 15000; windowMs := 30000; maxFailures := 3 |}.

(** The literal [120000] of [record]. *)
Definition maxCooldownMs : Z := 120000.

Record Breaker : Type := {
  state : State;
  failures : list Z;
  nextAttemptAt : Z;
  cooldownMs : Z
}.

Definition init (cfg : Config) : Breaker :=
  {| state := CLOSED; failures := []; nextAttemptAt := 0;
     cooldownMs := baseCooldownMs cfg |}.

(** [failures.filter(ts => t - ts < windowMs)] *)
Definition evict (cfg : Config) (t : Z) (l : list Z) : list Z :=
  filter (fun ts => t - ts < windowMs cfg) l.

(** [record(success)], called at instant [t]; [rnd] is the value that
    [Math.random()] returns if the call reads it. *)
Definition record (cfg : Config) (t : Z) (rnd : Rand) (success : bool)
    (b : Breaker) : Breaker :=
  let fs := evict cfg t (failures b) in
  let fs := if success then fs else fs ++ [t] in
  if decide (state b = CLOSED /\ maxFailures cfg <= Z.of_nat (length fs)) then
    {| state := OPEN; failures := fs;
       nextAttemptAt := t + cooldownMs b; cooldownMs := cooldownMs b |}
  else if decide (state b = HALF_OPEN) then
    if success then
      {| state := CLOSED; failures := [];
         nextAttemptAt := nextAttemptAt b; cooldownMs := baseCooldownMs cfg |}
    else
      let cd := Z.min (cooldownMs b * 2) 120000 + floor_random_times rnd 250 in
      {| state := OPEN; failures := fs;
         nextAttemptAt := t + cd; cooldownMs := cd |}
  else
    {| state := state b; failures := fs;
       nextAttemptAt := nextAttemptAt b; cooldownMs := cooldownMs b |}.

Record Admission : Type := {
  allowed : bool;
  probe : bool;
  retryAfter : Z
}.

(** [allowRequest()], called at instant [t]. *)
Definition allowRequest (t : Z) (b : Breaker) : Breaker * Admission :=
  if decide (state b = OPEN) then
    if decide (nextAttemptAt b <= t) then
      ({| state := HALF_OPEN; failures := failures b;
          nextAttemptAt := nextAttemptAt b; cooldownMs := cooldownMs b |},
       {| allowed := true; probe := true; retryAfter := 0 |})
    else
      (b, {| allowed := false; probe := false;
             retryAfter := ceil_div (nextAttemptAt b - t) 1000 |})
  else
    (b, {| allowed := true; probe := false; retryAfter := 0 |}).

Definition getState (b : Breaker) : State := state b.

(** *** Histories of breaker operations *)

Inductive Op : Type :=
| OpRecord (t : Z) (rnd : Rand) (success : bool)
| OpAllow (t : Z)
| OpGetState.

Definition op_ok (o : Op) : Prop :=
  match o with
  | OpRecord _ rnd _ => rand_ok rnd
  | _ => True
  end.

Definition step (cfg : Config) (o : Op) (b : Breaker) : Breaker :=
  match o with
  | OpRecord t rnd success => record cfg t rnd success b
  | OpAllow t => fst (allowRequest t b)
  | OpGetState => b
  end.

(** Running a history, oldest operation first. *)
Definition run (cfg : Config) (ops : list Op) (b : Breaker) : Breaker :=
  foldl (fun acc o => step cfg o acc) b ops.

Definition reachable (cfg : Config) (b : Breaker) : Prop :=
  exists ops, Forall op_ok ops /\ b = run cfg ops (init cfg).

(** One [record] call of a sequence: the instant, the random draw and the
    success flag. *)
Record Call : Type := { at_ : Z; draw : Rand; ok : bool }.

Definition record_call (cfg : Config) (b : Breaker) (c : Call) : Breaker :=
  record cfg (at_ c) (draw c) (ok c) b.

Definition record_all (cfg : Config) (calls : list Call) (b : Breaker) : Breaker :=
  foldl (record_call cfg) b calls.

(** The instants of the failed calls of a sequence. *)
Definition failure_times (calls : list Call) : list Z :=
  at_ <$> filter (fun c => ok c = false) calls.

(** The admissions of a sequence of [allowRequest] calls with no [record]
    in between. *)
Fixpoint allow_all (ts : list Z) (b : Breaker) : Breaker * list Admission :=
  match ts with
  | [] => (b, [])
  | t :: ts' =>
      let '(b1, a) := allowRequest t b in
      let '(b2, l) := allow_all ts' b1 in
      (b2, a :: l)
  end.

(** What [if (!success) failures.push(t)] appends. *)
Definition pushed (t : Z) (success : bool) : list Z :=
  if success then [] else [t].

(** An admission that is marked as the probe. *)
Definition is_probe (a : Admission) : Prop := probe a = true.

(** The breaker after [state = 'HALF_OPEN']. *)
Definition half_open (b : Breaker) : Breaker :=
  {| state := HALF_OPEN; failures := failures b;
     nextAttemptAt := nextAttemptAt b; cooldownMs := cooldownMs b |}.

(** *** Concrete histories, with the default configuration *)

(** [Math.random()] returning 0, and returning 249/250. *)
Definition draw_low : Rand := {| rnum := 0; rden := 1 |}.
Definition draw_high : Rand := {| rnum := 249; rden := 250 |}.

(** Three failed requests at instant 0 open the breaker until 15000. *)
Definition tripping : list Op :=
  [OpRecord 0 draw_low false; OpRecord 0 draw_low false; OpRecord 0 draw_low false].

Definition tripped : Breaker := run defaults tripping (init defaults).

(** Then three probes, each admitted as soon as the cooldown has elapsed,
    fail in a row; the third draws the jitter 249. *)
Definition escalating : list Op :=
  tripping ++
  [OpAllow 15000; OpRecord 15000 draw_low false;
   OpAllow 45000; OpRecord 45000 draw_low false;
   OpAllow 105000; OpRecord 105000 draw_high false].

Definition escalated : Breaker := run defaults escalating (init defaults).

(** *** Shapes of call sequences *)

(** Each call comes at least [w] after the one before it, the first one
    at least [w] after [prev]. *)
Fixpoint spaced_after (w prev : Z) (calls : list Call) : Prop :=
  match calls with
  | [] => True
  | c :: rest => prev + w <= at_ c /\ spaced_after w (at_ c) rest
  end.

(** Any two calls are less than [w] apart. *)
Definition burst (w : Z) (calls : list Call) : Prop :=
  forall c c', c ∈ calls -> c' ∈ calls -> at_ c' - at_ c < w.

Definition all_fail (calls : list Call) : Prop :=
  Forall (fun c => ok c = false) calls.

End CB.

(** ** HTTP responses and failures *)

Section Http.

Context {Json : Type}.

(** What the code reads of a [fetch] response: [resp.status] and the value
    of [resp.json()], [None] when the body does not parse. *)
Record Response : Type := { status : Z; body : option Json }.

(** [resp.ok]: the status is in the range 200-299. *)
Definition resp_ok (r : Response) : bool :=
  bool_decide (200 <= status r /\ status r <= 299).

Inductive Error : Type :=
| UpstreamStatus (st : Z)   (* new Error(`Upstream ${resp.status}`) *)
| UpstreamError             (* new Error('Upstream error') *)
| FailedEvent (i : nat)     (* new Error(`Failed event ${evId}`), for slot i *)
| FetchError                (* fetch() itself rejected *)
| JsonError.                (* resp.json() rejected *)

Inductive FetchResult : Type :=
| Fetched (resp : Response)
| Rejected.

Inductive Outcome (A : Type) : Type :=
| Returned (a : A)
| Thrown (e : Error).

End Http.

Arguments Response : clear implicits.
Arguments FetchResult : clear implicits.
Arguments Outcome : clear implicits.
Arguments Returned {A} a.
Arguments Thrown {A} e.

(** ** The retry executor [postWithRetry] *)

Module Retry.

Section Executor.

Context {Json : Type}.

(** What a call does besides returning: the attempts it makes and the
    [setTimeout] delays it waits for, in order. *)
Inductive Event : Type :=
| Attempt (attempt : nat)
| Wait (ms : Z).

(** [upstream a] is what [fetch] yields on attempt [a]; [rnds a] is the
    [Math.random()] draw of attempt [a]. *)
Variable upstream : nat -> FetchResult Json.
Variable rnds : nat -> Rand.
Variable baseMs : Z.

(** [baseMs * 2 ** attempt + Math.floor(Math.random() * 50)] *)
Definition backoff (attempt : nat) : Z :=
  baseMs * 2 ^ Z.of_nat attempt + floor_random_times (rnds attempt) 50.

(** The [for] loop from [attempt] on, with [remaining = max - attempt]
    iterations left, followed by the final [throw]. *)
Fixpoint retry_loop (remaining attempt : nat) (lastErr : option Error)
    : list Event * Outcome (Response Json) :=
  match remaining with
  | O => ([], Thrown (default UpstreamError lastErr))
  | S k =>
      match upstream attempt with
      | Rejected => ([Attempt attempt], Thrown FetchError)
      | Fetched resp =>
          if resp_ok resp then ([Attempt attempt], Returned resp)
          else if decide (500 <= status resp) then
            let '(tr, out) :=
              retry_loop k (S attempt) (Some (UpstreamStatus (status resp))) in
            (Attempt attempt :: Wait (backoff attempt) :: tr, out)
          else ([Attempt attempt], Thrown (UpstreamStatus (status resp)))
      end
  end.

Definition postWithRetry (max : nat) : list Event * Outcome (Response Json) :=
  retry_loop max 0 None.

End Executor.

(** The [setTimeout] delays of a trace, in order. *)
Definition waits (tr : list Event) : list Z :=
  omap (fun e => match e with Wait ms => Some ms | Attempt _ => None end) tr.

(** The attempts of a trace, in order. *)
Definition attempts (tr : list Event) : list nat :=
  omap (fun e => match e with Attempt a => Some a | Wait _ => None end) tr.

(** A retryable failure: not [ok] and [status >= 500]. *)
Definition retryable {Json : Type} (f : FetchResult Json) : Prop :=
  match f with
  | Fetched resp => resp_ok resp = false /\ 500 <= status resp
  | Rejected => False
  end.

(** A non-retryable upstream failure: not [ok] and [status < 500]. *)
Definition non_retryable {Json : Type} (f : FetchResult Json) : Prop :=
  match f with
  | Fetched resp => resp_ok resp = false /\ status resp < 500
  | Rejected => False
  end.

Definition succeeds {Json : Type} (f : FetchResult Json) : Prop :=
  match f with
  | Fetched resp => resp_ok resp = true
  | Rejected => False
  end.

(** *** Concrete upstreams *)

(** An upstream that answers every attempt with 503, and one that answers
    503 twice and then 200; draws that are all 0. *)
Definition always_503 : nat -> FetchResult unit :=
  fun _ => Fetched {| status := 503; body := None |}.

Definition recovers_at_2 : nat -> FetchResult unit :=
  fun a => if decide (a < 2)%nat then Fetched {| status := 503; body := None |}
           else Fetched {| status := 200; body := Some tt |}.

Definition always_404 : nat -> FetchResult unit :=
  fun _ => Fetched {| status := 404; body := None |}.

Definition no_jitter : nat -> Rand := fun _ => CB.draw_low.

(** An upstream that answers 503 once and whose second fetch rejects. *)
Definition rejects_at_1 : nat -> FetchResult unit :=
  fun a => if decide (a < 1)%nat then Fetched {| status := 503; body := None |}
           else Rejected.

End Retry.

(** ** The write path: [POST /addEvent] *)

Module AddEvent.

Section Handler.

Context {Json : Type}.

Inductive Body : Type :=
| Data (data : Json)
| Failure (error reason : string) (retryAfter : option Z).

(** The reply: status code, [Retry-After] header, body. *)
Record Reply : Type := {
  code : Z;
  retryAfterHeader : option Z;
  payload : Body
}.

(** [RETRY_MAX ?? 3] and [RETRY_BASE_MS ?? 200], the defaults of
    [postWithRetry]'s parameters. *)
Variable cfg : CB.Config.
Variable retryMax : nat.
Variable retryBaseMs : Z.

(** The handler. [tAllow] and [tRecord] are the instants at which
    [allowRequest] and [record] read the clock, [cbRnd] the draw [record]
    may read. Returns the breaker, the trace of the retry executor and the
    reply. *)
Definition handler (tAllow tRecord : Z) (cbRnd : Rand)
    (upstream : nat -> FetchResult Json) (rnds : nat -> Rand)
    (b : CB.Breaker) : CB.Breaker * list Retry.Event * Reply :=
  let '(b1, adm) := CB.allowRequest tAllow b in
  if negb (CB.allowed adm) then
    (b1, [],
     {| code := 503; retryAfterHeader := Some (CB.retryAfter adm);
        payload := Failure "Service temporarily unavailable" "circuit_open"
                     (Some (CB.retryAfter adm)) |})
  else
    let '(tr, out) := Retry.postWithRetry upstream rnds retryBaseMs retryMax in
    let caught :=
      (CB.record cfg tRecord cbRnd false b1, tr,
       {| code := 503; retryAfterHeader := None;
          payload := Failure "Upstream unavailable"
                       (if CB.probe adm then "probe_failed" else "retry_exhausted")
                       None |}) in
    match out with
    | Returned resp =>
        match body resp with
        | Some data =>
            (CB.record cfg tRecord cbRnd true b1, tr,
             {| code := 200; retryAfterHeader := None; payload := Data data |})
        | None => caught
        end
    | Thrown _ => caught
    end.

(** *** The three replies of the handler *)

Definition circuit_open_reply (retryAfter : Z) : Reply :=
  {| code := 503; retryAfterHeader := Some retryAfter;
     payload := Failure "Service temporarily unavailable" "circuit_open"
                  (Some retryAfter) |}.

Definition unavailable_reply (probe : bool) : Reply :=
  {| code := 503; retryAfterHeader := None;
     payload := Failure "Upstream unavailable"
                  (if probe then "probe_failed" else "retry_exhausted") None |}.

Definition success_reply (data : Json) : Reply :=
  {| code := 200; retryAfterHeader := None; payload := Data data |}.

(** *** Requests served one after the other *)

(** What one request brings: the instants at which its [allowRequest] and
    its [record] read the clock, the draw of [record], the upstream's
    answers to its attempts and the draws of its backoffs. *)
Record Request : Type := {
  tAllow : Z;
  tRecord : Z;
  cbRnd : Rand;
  upstream : nat -> FetchResult Json;
  rnds : nat -> Rand
}.

Definition serve_one (b : CB.Breaker) (r : Request) : CB.Breaker * Reply :=
  let '(b', _, reply) :=
    handler (tAllow r) (tRecord r) (cbRnd r) (upstream r) (rnds r) b in
  (b', reply).

(** Requests that do not overlap: each one is answered before the next
    one arrives. *)
Fixpoint serve (reqs : list Request) (b : CB.Breaker) : CB.Breaker * list Reply :=
  match reqs with
  | [] => (b, [])
  | r :: rest =>
      let '(b1, reply) := serve_one b r in
      let '(b2, replies) := serve rest b1 in
      (b2, reply :: replies)
  end.

(** The retry executor gives up on the request. *)
Definition throws (r : Request) : Prop :=
  exists e, snd (Retry.postWithRetry (upstream r) (rnds r) retryBaseMs retryMax)
            = Thrown e.

(** The [record(false)] call that a failed request makes. *)
Definition failed_call (r : Request) : CB.Call :=
  {| CB.at_ := tRecord r; CB.draw := cbRnd r; CB.ok := false |}.

End Handler.

(** *** Concrete requests *)

(** A request at instant [t] whose three attempts are answered 503; its
    outcome is recorded 1400 ms later (the backoffs of 200, 400 and
    800 ms). *)
Definition failing_at (t : Z) : @Request unit :=
  {| tAllow := t; tRecord := t + 1400; cbRnd := CB.draw_low;
     upstream := Retry.always_503; rnds := Retry.no_jitter |}.

(** An upstream that answers 200 with a body that is not JSON. *)
Definition unparsable_200 : nat -> FetchResult unit :=
  fun _ => Fetched {| status := 200; body := None |}.

End AddEvent.

(** ** The read path: the bounded fan-out of [GET /getEventsByUserId/:id] *)

Module FanOut.

(** [const CONCURRENCY = 5] *)
Definition CONCURRENCY : nat := 5.

Section Executor.

Context {Json EvId : Type}.

(** A worker is suspended at one of its two [await]s, holding the index it
    claimed, or has finished, or has thrown. *)
Inductive Worker : Type :=
| AwaitFetch (myIndex : nat)
| AwaitJson (myIndex : nat)
| Done
| Failed (e : Error).

Record Pool : Type := {
  cursor : nat;
  results : list (option Json);
  workers : list Worker
}.

Variable eventIds : list EvId.

(** [fetchEvent i ev] is what the fetch issued for slot [i] yields, where
    [ev] is [eventIds[i]] ([None] for [undefined]). *)
Variable fetchEvent : nat -> option EvId -> FetchResult Json.

(** The concurrency limit; the handler uses [CONCURRENCY]. *)
Variable K : nat.

(** The head of the [while] loop: claim the next index and suspend at the
    [fetch], or leave the loop. *)
Definition enter_loop (cur : nat) : nat * Worker :=
  if decide (cur < length eventIds)%nat then (S cur, AwaitFetch cur)
  else (cur, Done).

(** [Array.from({ length: n }, worker)]: each worker runs up to its first
    [await] before the next one is created. *)
Fixpoint spawn_workers (n : nat) (p : Pool) : Pool :=
  match n with
  | O => p
  | S n' =>
      let '(cur, w) := enter_loop (cursor p) in
      spawn_workers n'
        {| cursor := cur; results := results p; workers := workers p ++ [w] |}
  end.

Definition spawn : Pool :=
  spawn_workers (Nat.min K (length eventIds))
    {| cursor := 0; results := replicate (length eventIds) None; workers := [] |}.

(** The event loop resumes worker [w], whose pending promise has settled;
    the worker runs up to its next [await]. Resuming a worker that has
    finished, or that does not exist, does nothing. *)
Definition resume (w : nat) (p : Pool) : Pool :=
  match workers p !! w with
  | Some (AwaitFetch i) =>
      let next :=
        match fetchEvent i (eventIds !! i) with
        | Rejected => Failed FetchError
        | Fetched resp => if resp_ok resp then AwaitJson i else Failed (FailedEvent i)
        end in
      {| cursor := cursor p; results := results p;
         workers := <[w := next]> (workers p) |}
  | Some (AwaitJson i) =>
      match fetchEvent i (eventIds !! i) with
      | Fetched {| body := Some data |} =>
          let '(cur, next) := enter_loop (cursor p) in
          {| cursor := cur; results := <[i := Some data]> (results p);
             workers := <[w := next]> (workers p) |}
      | _ =>
          {| cursor := cursor p; results := results p;
             workers := <[w := Failed JsonError]> (workers p) |}
      end
  | _ => p
  end.

(** A schedule: the order in which the event loop resumes the workers. *)
Definition run (sched : list nat) (p : Pool) : Pool :=
  foldl (fun acc w => resume w acc) p sched.

Definition suspended (wk : Worker) : bool :=
  match wk with
  | AwaitFetch _ | AwaitJson _ => true
  | _ => false
  end.

Definition is_done (wk : Worker) : bool :=
  match wk with Done => true | _ => false end.

Definition all_done (p : Pool) : bool := forallb is_done (workers p).

(** A schedule that only resumes suspended workers. *)
Fixpoint productive (sched : list nat) (p : Pool) : bool :=
  match sched with
  | [] => true
  | w :: sched' =>
      match workers p !! w with
      | Some wk => suspended wk && productive sched' (resume w p)
      | None => false
      end
  end.

(** [await Promise.all(workers); return reply.send(results)]: the array
    that is sent once every worker has finished. *)
Definition sent (p : Pool) : option (list (option Json)) :=
  if all_done p then Some (results p) else None.

(** What task [i] produces when it succeeds. *)
Definition task_result (i : nat) : option Json :=
  match fetchEvent i (eventIds !! i) with
  | Fetched resp => if resp_ok resp then body resp else None
  | Rejected => None
  end.

Definition all_succeed : Prop :=
  forall i, (i < length eventIds)%nat -> is_Some (task_result i).

(** The number of resumptions still to come: two for every index not yet
    claimed, two for a worker at its [fetch] and one for a worker at its
    [json()]. *)
Definition weight (wk : Worker) : nat :=
  match wk with
  | AwaitFetch _ => 2
  | AwaitJson _ => 1
  | _ => 0
  end.

Definition pending (p : Pool) : nat :=
  2 * (length eventIds - cursor p) + sum_list_with weight (workers p).

(** Worker [w] has claimed index [i] and has not stored its result yet. *)
Definition holds (p : Pool) (w i : nat) : Prop :=
  workers p !! w = Some (AwaitFetch i) \/ workers p !! w = Some (AwaitJson i).

(** The invariant of a pool on which every task succeeds. *)
Record consistent (p : Pool) : Prop := {
  c_results : length (results p) = length eventIds;
  c_cursor : (cursor p <= length eventIds)%nat;
  c_workers : length (workers p) = Nat.min K (length eventIds);
  c_held : forall w i, holds p w i -> (i < cursor p)%nat;
  c_filled : forall i, (i < cursor p)%nat ->
      results p !! i = Some (task_result i) \/ exists w, holds p w i;
  c_done : forall w, workers p !! w = Some Done -> cursor p = length eventIds;
  c_no_failure : forall w e, workers p !! w <> Some (Failed e)
}.

(** The invariant of a pool whatever the upstream answers. *)
Record sound (p : Pool) : Prop := {
  s_results : length (results p) = length eventIds;
  s_cursor : (cursor p <= length eventIds)%nat;
  s_workers : length (workers p) = Nat.min K (length eventIds);
  s_held : forall w i, holds p w i -> (i < cursor p)%nat;
  s_unique : forall w w' i, holds p w i -> holds p w' i -> w = w';
  s_empty : forall w i, holds p w i -> results p !! i = Some None;
  s_fresh : forall i, (cursor p <= i < length eventIds)%nat ->
      results p !! i = Some None;
  s_json : forall w i, workers p !! w = Some (AwaitJson i) ->
      exists resp, fetchEvent i (eventIds !! i) = Fetched resp /\
                   resp_ok resp = true;
  s_slot : forall i data, results p !! i = Some (Some data) ->
      task_result i = Some data;
  s_filled : forall i, (i < cursor p)%nat ->
      (exists data, results p !! i = Some (Some data)) \/
      (exists w, holds p w i) \/
      (exists w e, workers p !! w = Some (Failed e));
  s_failed : forall w e, workers p !! w = Some (Failed e) ->
      exists i, (i < length eventIds)%nat /\ task_result i = None;
  s_done : forall w, workers p !! w = Some Done -> cursor p = length eventIds
}.

(** [await Promise.all(workers)] as the handler sees it: it resolves with
    the results once every worker has finished and rejects with the error
    of the first worker that throws; [None] while neither has happened
    under the schedule. *)
Fixpoint await_all (sched : list nat) (p : Pool)
    : option (Outcome (list (option Json))) :=
  if all_done p then Some (Returned (results p))
  else
    match sched with
    | [] => None
    | w :: rest =>
        match workers (resume w p) !! w with
        | Some (Failed e) => Some (Thrown e)
        | _ => await_all rest (resume w p)
        end
    end.

End Executor.

(** *** A concrete request: six events, the fifth one answered first *)

Definition six_events : list nat := [10; 20; 30; 40; 50; 60]%nat.

Definition echo : nat -> option nat -> FetchResult (nat * option nat) :=
  fun i ev => Fetched {| status := 200; body := Some (i, ev) |}.

Definition fifth_first : list nat := [4; 4; 3; 0; 4; 1; 2; 0; 3; 4; 2; 1]%nat.

End FanOut.

(** ** The handler of [GET /getEventsByUserId/:id] *)

Module GetEvents.

(** A parsed JSON value; a number is kept as its literal, an object as the
    list of its properties. *)
#[warnings="-register-all"]
Inductive JValue : Type :=
| JNull
| JBool (b : bool)
| JNumber (literal : string)
| JString (s : string)
| JArray (items : list JValue)
| JObject (fields : list (string * JValue)).

(** [obj[key]] on the properties of an object. *)
Fixpoint property (key : string) (fields : list (string * JValue)) : option JValue :=
  match fields with
  | [] => None
  | (k, v) :: rest => if String.eqb k key then Some v else property key rest
  end.

(** [Array.isArray(userData?.events) ? userData.events : []] *)
Definition event_ids (userData : JValue) : list JValue :=
  match userData with
  | JObject fields =>
      match property "events" fields with
      | Some (JArray items) => items
      | _ => []
      end
  | _ => []
  end.

Inductive Body : Type :=
| ErrorBody (error : string)
| Events (results : list (option JValue)).

Record Reply : Type := { code : Z; payload : Body }.

(** The handler: [userFetch] is what the fetch of the user yields,
    [fetchEvent] what the fetches of the events yield, [sched] the order
    in which the event loop resumes the workers. [None]: no reply yet
    under this schedule. *)
Definition handler (userFetch : FetchResult JValue)
    (fetchEvent : nat -> option JValue -> FetchResult JValue)
    (sched : list nat) : option (Outcome Reply) :=
  match userFetch with
  | Rejected => Some (Thrown FetchError)
  | Fetched userResp =>
      if negb (resp_ok userResp) then
        Some (Returned {| code := 502; payload := ErrorBody "Failed to load user" |})
      else
        match body userResp with
        | None => Some (Thrown JsonError)
        | Some userData =>
            let eventIds := event_ids userData in
            match FanOut.await_all eventIds fetchEvent sched
                    (FanOut.spawn eventIds FanOut.CONCURRENCY) with
            | Some (Returned results) =>
                Some (Returned {| code := 200; payload := Events results |})
            | Some (Thrown e) => Some (Thrown e)
            | None => None
            end
        end
  end.

(** *** A concrete user *)

Definition two_events : JValue :=
  JObject [("id", JNumber "7");
           ("events", JArray [JNumber "11"; JNumber "12"])].

Definition user_200 (userData : JValue) : FetchResult JValue :=
  Fetched {| status := 200; body := Some userData |}.

(** Every event exists and is answered with its own id. *)
Definition event_echo : nat -> option JValue -> FetchResult JValue :=
  fun _ ev => Fetched {| status := 200; body := ev |}.

(** The event of slot 1 is answered 404. *)
Definition second_missing : nat -> option JValue -> FetchResult JValue :=
  fun i ev => if decide (i = 1%nat) then Fetched {| status := 404; body := None |}
              else Fetched {| status := 200; body := ev |}.

End GetEvents.

(** * Properties *)

(** ** Arithmetic of the random and rounding primitives *)

Lemma floor_random_times_bounds (r : Rand) (k : Z) :
  rand_ok r -> 0 < k -> 0 <= floor_random_times r k < k.
Proof.
  unfold rand_ok, floor_random_times. intros [Hlo Hhi] Hk. split.
  - apply Z.div_pos; nia.
  - apply Z.div_lt_upper_bound; nia.
Qed.

Lemma ceil_div_spec (x d : Z) :
  0 < d -> d * (ceil_div x d - 1) < x <= d * ceil_div x d.
Proof.
  intros Hd. unfold ceil_div.
  pose proof (Z.div_mod (- x) d ltac:(lia)) as Hdm.
  pose proof (Z.mod_pos_bound (- x) d Hd) as Hm.
  nia.
Qed.

Lemma ceil_div_mono (x y d : Z) : 0 < d -> x <= y -> ceil_div x d <= ceil_div y d.
Proof.
  intros Hd Hxy. unfold ceil_div.
  assert (- y / d <= - x / d) by (apply Z.div_le_mono; lia). lia.
Qed.

Lemma ceil_div_pos (x d : Z) : 0 < d -> 0 < x -> 1 <= ceil_div x d.
Proof. intros Hd Hx. pose proof (ceil_div_spec x d Hd). nia. Qed.

(** ** The circuit breaker *)

Module CBFacts.

Import CB.

(** Case analysis on the branches of [record]. *)
Ltac record_cases :=
  unfold record; simpl; repeat case_decide; simpl in *;
  try solve [intuition congruence].

Lemma evict_evict (cfg : Config) (t1 t2 : Z) (l : list Z) :
  t1 <= t2 -> evict cfg t2 (evict cfg t1 l) = evict cfg t2 l.
Proof.
  intros Hle. unfold evict. rewrite list_filter_filter.
  apply list_filter_iff. intros ts. lia.
Qed.

Lemma evict_app (cfg : Config) (t : Z) (l k : list Z) :
  evict cfg t (l ++ k) = evict cfg t l ++ evict cfg t k.
Proof. apply filter_app. Qed.

Lemma evict_now (cfg : Config) (t : Z) :
  0 < windowMs cfg -> evict cfg t [t] = [t].
Proof. intros Hw. unfold evict. apply filter_singleton_True; [exact [] | lia]. Qed.

Lemma record_failures (cfg : Config) t rnd success b :
  state b <> HALF_OPEN ->
  failures (record cfg t rnd success b) = evict cfg t (failures b) ++ pushed t success.
Proof.
  intros Hs. unfold pushed. record_cases; destruct success; simpl;
    rewrite ?app_nil_r; reflexivity.
Qed.

Lemma record_state_closed (cfg : Config) t rnd success b :
  state b = CLOSED ->
  state (record cfg t rnd success b) =
    if decide (maxFailures cfg <=
               Z.of_nat (length (evict cfg t (failures b) ++ pushed t success)))
    then OPEN else CLOSED.
Proof.
  intros Hs. unfold pushed. record_cases; destruct success; simpl in *;
    rewrite ?app_nil_r in *; try reflexivity; try congruence; tauto.
Qed.

Lemma record_not_half_open (cfg : Config) t rnd success b :
  state (record cfg t rnd success b) <> HALF_OPEN.
Proof. record_cases; destruct success; simpl; congruence. Qed.

Lemma record_all_snoc (cfg : Config) calls c b :
  record_all cfg (calls ++ [c]) b = record_call cfg (record_all cfg calls b) c.
Proof. unfold record_all. apply foldl_snoc. Qed.

Lemma failure_times_app (l k : list Call) :
  failure_times (l ++ k) = failure_times l ++ failure_times k.
Proof. unfold failure_times. now rewrite filter_app, fmap_app. Qed.

Lemma failure_times_singleton (c : Call) :
  failure_times [c] = pushed (at_ c) (ok c).
Proof.
  unfold failure_times, pushed. destruct c as [t r [|]]; reflexivity.
Qed.

Lemma evict_pushed_le (cfg : Config) (t t' : Z) (l : list Z) (success : bool) :
  t' <= t ->
  evict cfg t (evict cfg t' l ++ pushed t' success) =
  evict cfg t (l ++ pushed t' success).
Proof. intros Hle. now rewrite !evict_app, evict_evict. Qed.

(** While only [record] runs from a state that is not HALF_OPEN, the list
    seen through the window of a later instant is the whole history seen
    through that window. *)
Lemma record_all_window (cfg : Config) (t : Z) (calls : list Call) (b : Breaker) :
  state b <> HALF_OPEN ->
  (forall c, c ∈ calls -> at_ c <= t) ->
  state (record_all cfg calls b) <> HALF_OPEN /\
  evict cfg t (failures (record_all cfg calls b)) =
  evict cfg t (failures b ++ failure_times calls).
Proof.
  intros Hs. induction calls as [|c calls IH] using rev_ind; intros Hle.
  - simpl. split; [exact Hs|]. unfold failure_times. simpl. now rewrite app_nil_r.
  - rewrite record_all_snoc. unfold record_call.
    destruct IH as [IHs IHf].
    { intros c' Hc'. apply Hle. apply elem_of_app. now left. }
    split; [apply record_not_half_open|].
    rewrite record_failures by exact IHs.
    rewrite evict_pushed_le by (apply Hle; apply elem_of_app; right; now apply list_elem_of_singleton).
    rewrite failure_times_app, failure_times_singleton, app_assoc.
    rewrite evict_app, IHf, <- evict_app. reflexivity.
Qed.

Lemma elem_of_record_failures (cfg : Config) t rnd success b ts :
  ts ∈ failures (record cfg t rnd success b) ->
  ts = t \/ (t - ts < windowMs cfg /\ ts ∈ failures b).
Proof.
  record_cases; destruct success; simpl;
    rewrite ?elem_of_app, ?list_elem_of_singleton; unfold evict;
    rewrite ?list_elem_of_filter; try tauto; try (intros H'; inversion H').
Qed.

(** C1: for every sequence of [record] calls made while the breaker is
    CLOSED (none of them later than the present call on the clock), the
    present call leaves exactly the recorded failure timestamps that lie
    within the trailing window, and it opens the breaker if and only if
    their count reaches [maxFailures]; otherwise the breaker stays CLOSED.
    A [record(true)] only evicts, it does not reset the list; and after
    every [record] call, in every state, no timestamp older than the window
    is left. *)
Theorem C1_closed_opens_iff_window_count
    (cfg : Config) (calls : list Call) (t : Z) (rnd : Rand) (success : bool)
    (b : Breaker) :
  0 < windowMs cfg ->
  state b = CLOSED ->
  state (record_all cfg calls b) = CLOSED ->
  (forall c, c ∈ calls -> at_ c <= t) ->
  let b1 := record_all cfg calls b in
  let b2 := record cfg t rnd success b1 in
  let history :=
    failures b ++
    failure_times (calls ++ [{| at_ := t; draw := rnd; ok := success |}]) in
  failures b2 = evict cfg t history /\
  (state b2 = OPEN <-> maxFailures cfg <= Z.of_nat (length (evict cfg t history))) /\
  (state b2 = CLOSED <-> Z.of_nat (length (evict cfg t history)) < maxFailures cfg) /\
  (success = true -> failures b2 = evict cfg t (failures b1)) /\
  (forall b0 t0 rnd0 success0 ts,
     ts ∈ failures (record cfg t0 rnd0 success0 b0) -> t0 - ts < windowMs cfg).
Proof.
  intros Hw Hb Hb1 Hle b1 b2 history.
  assert (Hn : state b1 <> HALF_OPEN) by (unfold b1; congruence).
  destruct (record_all_window cfg t calls b) as [_ Hwin]; [congruence | exact Hle |].
  fold b1 in Hwin, Hb1.
  assert (Hf : failures b2 = evict cfg t history).
  { unfold b2, history. rewrite record_failures by exact Hn.
    rewrite failure_times_app, failure_times_singleton, app_assoc. simpl.
    rewrite (evict_app cfg t (_ ++ _)), <- Hwin.
    f_equal. destruct success; simpl; [reflexivity|].
    symmetry. now apply evict_now. }
  assert (Hst := record_state_closed cfg t rnd success b1 Hb1).
  rewrite <- (record_failures cfg t rnd success b1 Hn) in Hst.
  fold b2 in Hst.
  split; [exact Hf|]. rewrite <- Hf. split; [|split; [|split]].
  - rewrite Hst. case_decide; split; intros; try reflexivity; try lia; congruence.
  - rewrite Hst. case_decide; split; intros; try reflexivity; try lia; congruence.
  - intros ->. unfold b2. rewrite record_failures by exact Hn.
    simpl. now rewrite app_nil_r.
  - intros b0 t0 rnd0 success0 ts Hin.
    apply elem_of_record_failures in Hin. destruct Hin as [-> | [Hin _]]; lia.
Qed.

(** *** Admission *)

Lemma allowRequest_open_early (t : Z) (b : Breaker) :
  state b = OPEN -> t < nextAttemptAt b ->
  allowRequest t b =
    (b, {| allowed := false; probe := false;
           retryAfter := ceil_div (nextAttemptAt b - t) 1000 |}).
Proof.
  intros Hs Ht. unfold allowRequest.
  rewrite decide_True by exact Hs. rewrite decide_False by lia. reflexivity.
Qed.

Lemma allowRequest_open_due (t : Z) (b : Breaker) :
  state b = OPEN -> nextAttemptAt b <= t ->
  allowRequest t b =
    (half_open b, {| allowed := true; probe := true; retryAfter := 0 |}).
Proof.
  intros Hs Ht. unfold allowRequest.
  rewrite decide_True by exact Hs. rewrite decide_True by exact Ht. reflexivity.
Qed.

Lemma allowRequest_not_open (t : Z) (b : Breaker) :
  state b <> OPEN ->
  allowRequest t b = (b, {| allowed := true; probe := false; retryAfter := 0 |}).
Proof. intros Hs. unfold allowRequest. now rewrite decide_False by exact Hs. Qed.

Lemma allow_all_app (ts1 ts2 : list Z) (b : Breaker) :
  allow_all (ts1 ++ ts2) b =
    (fst (allow_all ts2 (fst (allow_all ts1 b))),
     snd (allow_all ts1 b) ++ snd (allow_all ts2 (fst (allow_all ts1 b)))).
Proof.
  revert b. induction ts1 as [|t ts1 IH]; intros b; simpl.
  - now destruct (allow_all ts2 b).
  - destruct (allowRequest t b) as [b1 a]. rewrite IH.
    destruct (allow_all ts1 b1) as [b2 l]. reflexivity.
Qed.

Lemma allow_all_open_early (ts : list Z) (b : Breaker) :
  state b = OPEN -> Forall (fun t => t < nextAttemptAt b) ts ->
  allow_all ts b =
    (b, (fun t => {| allowed := false; probe := false;
                     retryAfter := ceil_div (nextAttemptAt b - t) 1000 |}) <$> ts).
Proof.
  intros Hs. induction 1 as [|t ts Ht _ IH]; simpl; [reflexivity|].
  rewrite allowRequest_open_early by assumption. now rewrite IH.
Qed.

Lemma allow_all_not_open (ts : list Z) (b : Breaker) :
  state b <> OPEN ->
  allow_all ts b =
    (b, replicate (length ts) {| allowed := true; probe := false; retryAfter := 0 |}).
Proof.
  intros Hs. induction ts as [|t ts IH]; simpl; [reflexivity|].
  rewrite allowRequest_not_open by exact Hs. now rewrite IH.
Qed.

(** C2 (as amended): while the breaker is OPEN, every [allowRequest] before
    [nextAttemptAt] leaves the breaker as it is and returns allowed=false
    with retryAfter = ceil((nextAttemptAt - now) / 1000), which is at least
    1; of two such checks the later one's retryAfter is never larger than
    the earlier one's, and it is strictly smaller when the checks are at
    least 1000 ms apart; after any number of such checks, the first check
    at or after [nextAttemptAt] moves the breaker to HALF_OPEN and returns
    allowed=true with probe=true. *)
Theorem C2_open_admission_amended
    (b : Breaker) (t1 t2 t3 : Z) (early : list Z) :
  state b = OPEN ->
  t1 <= t2 -> t2 < nextAttemptAt b ->
  Forall (fun t => t < nextAttemptAt b) early ->
  nextAttemptAt b <= t3 ->
  allowRequest t1 b =
    (b, {| allowed := false; probe := false;
           retryAfter := ceil_div (nextAttemptAt b - t1) 1000 |}) /\
  1 <= retryAfter (snd (allowRequest t1 b)) /\
  retryAfter (snd (allowRequest t2 (fst (allowRequest t1 b))))
    <= retryAfter (snd (allowRequest t1 b)) /\
  (t1 + 1000 <= t2 ->
   retryAfter (snd (allowRequest t2 (fst (allowRequest t1 b))))
     < retryAfter (snd (allowRequest t1 b))) /\
  fst (allow_all (early ++ [t3]) b) = half_open b /\
  state (fst (allow_all (early ++ [t3]) b)) = HALF_OPEN /\
  last (snd (allow_all (early ++ [t3]) b)) =
    Some {| allowed := true; probe := true; retryAfter := 0 |} /\
  Forall (fun a => allowed a = false) (snd (allow_all early b)).
Proof.
  intros Hs H12 H2 Hearly H3.
  rewrite (allowRequest_open_early t1) by (assumption || lia). cbn [fst snd retryAfter].
  rewrite (allowRequest_open_early t2) by (assumption || lia). cbn [fst snd retryAfter].
  rewrite allow_all_app, (allow_all_open_early early b Hs Hearly). cbn [fst snd allow_all].
  rewrite allowRequest_open_due by assumption. cbn [fst snd].
  repeat split.
  - apply ceil_div_pos; lia.
  - apply ceil_div_mono; lia.
  - intros Hfar.
    pose proof (ceil_div_spec (nextAttemptAt b - t1) 1000 ltac:(lia)).
    pose proof (ceil_div_spec (nextAttemptAt b - t2) 1000 ltac:(lia)).
    lia.
  - apply last_snoc.
  - apply Forall_fmap, Forall_forall. intros; reflexivity.
Qed.

Lemma C2_open_admission_amended_witness :
  state tripped = OPEN /\
  allowRequest 100 tripped =
    (tripped, {| allowed := false; probe := false; retryAfter := 15 |}) /\
  retryAfter (snd (allowRequest 1100 (fst (allowRequest 100 tripped)))) < 15 /\
  state (fst (allow_all ([100; 1100] ++ [15000]) tripped)) = HALF_OPEN.
Proof.
  assert (Hs : state tripped = OPEN) by reflexivity.
  assert (Hearly : Forall (fun t => t < nextAttemptAt tripped) [100; 1100]).
  { repeat constructor; vm_compute; reflexivity. }
  destruct (C2_open_admission_amended tripped 100 1100 15000 [100; 1100] Hs
              ltac:(lia) ltac:(vm_compute; reflexivity) Hearly
              ltac:(vm_compute; discriminate))
    as (H1 & _ & _ & H4 & _ & H6 & _).
  split; [exact Hs|]. split; [exact H1|]. split; [|exact H6].
  apply H4. lia.
Defined.

(** C2 fails as stated: two denied checks 100 ms apart, the later one
    strictly later, report the same retryAfter. *)
Lemma C2_retryAfter_not_strictly_decreasing :
  CB.reachable defaults tripped /\
  state tripped = OPEN /\
  100 < 200 /\ 200 < nextAttemptAt tripped /\
  allowed (snd (allowRequest 100 tripped)) = false /\
  allowed (snd (allowRequest 200 (fst (allowRequest 100 tripped)))) = false /\
  ~ retryAfter (snd (allowRequest 200 (fst (allowRequest 100 tripped))))
      < retryAfter (snd (allowRequest 100 tripped)).
Proof.
  split.
  { exists tripping. split; [|reflexivity].
    repeat constructor; unfold rand_ok; simpl; lia. }
  vm_compute. intuition congruence.
Qed.

(** *** Outcome of a probe *)

Lemma record_failed_probe (cfg : Config) (t : Z) (rnd : Rand) (b : Breaker) :
  rand_ok rnd ->
  state b = HALF_OPEN ->
  state (record cfg t rnd false b) = OPEN /\
  (exists jitter, 0 <= jitter < 250 /\
     cooldownMs (record cfg t rnd false b) =
       Z.min (cooldownMs b * 2) maxCooldownMs + jitter) /\
  nextAttemptAt (record cfg t rnd false b) =
    t + cooldownMs (record cfg t rnd false b).
Proof.
  intros Hr Hs.
  unfold record. rewrite decide_False by (rewrite Hs; intros [? _]; discriminate).
  rewrite decide_True by exact Hs. simpl. repeat split.
  exists (floor_random_times rnd 250). split; [|reflexivity].
  apply floor_random_times_bounds; [exact Hr | lia].
Qed.

(** C3: in HALF_OPEN, [record(true)] closes the breaker, clears the failure
    timestamps and resets the cooldown to the base cooldown;
    [record(false)] opens it, sets the cooldown to
    min(previous cooldown * 2, maxCooldown) plus a jitter that is not
    negative (and below 250), and sets [nextAttemptAt] to now plus the new
    cooldown. *)
Theorem C3_half_open_record (cfg : Config) (t : Z) (rnd : Rand) (b : Breaker) :
  rand_ok rnd ->
  state b = HALF_OPEN ->
  (state (record cfg t rnd true b) = CLOSED /\
   failures (record cfg t rnd true b) = [] /\
   cooldownMs (record cfg t rnd true b) = baseCooldownMs cfg) /\
  (state (record cfg t rnd false b) = OPEN /\
   (exists jitter, 0 <= jitter < 250 /\
      cooldownMs (record cfg t rnd false b) =
        Z.min (cooldownMs b * 2) maxCooldownMs + jitter) /\
   nextAttemptAt (record cfg t rnd false b) =
     t + cooldownMs (record cfg t rnd false b)).
Proof.
  intros Hr Hs. split.
  - record_cases.
  - now apply record_failed_probe.
Qed.

Lemma C3_half_open_record_witness :
  cooldownMs (record defaults 20000 draw_high true (half_open tripped)) = 15000 /\
  nextAttemptAt (record defaults 20000 draw_high false (half_open tripped)) =
    20000 + cooldownMs (record defaults 20000 draw_high false (half_open tripped)).
Proof.
  destruct (C3_half_open_record defaults 20000 draw_high (half_open tripped))
    as [(_ & _ & Hc) (_ & _ & Hn)].
  - unfold rand_ok; simpl; lia.
  - reflexivity.
  - split; [exact Hc | exact Hn].
Defined.

(** *** The cooldown *)

Lemma step_cooldown (cfg : Config) (o : Op) (b : Breaker) :
  op_ok o ->
  cooldownMs (step cfg o b) = cooldownMs b \/
  (state b = HALF_OPEN /\ state (step cfg o b) = CLOSED /\
   cooldownMs (step cfg o b) = baseCooldownMs cfg) \/
  (state b = HALF_OPEN /\ state (step cfg o b) = OPEN /\
   exists t rnd jitter,
     o = OpRecord t rnd false /\ 0 <= jitter < 250 /\
     cooldownMs (step cfg o b) = Z.min (cooldownMs b * 2) maxCooldownMs + jitter).
Proof.
  intros Hok. destruct o as [t rnd success| t |]; simpl.
  - unfold record. repeat case_decide; simpl; try (left; reflexivity).
    destruct success; simpl.
    + right; left. auto.
    + right; right. repeat split; try assumption.
      exists t, rnd, (floor_random_times rnd 250). repeat split.
      * apply floor_random_times_bounds; [exact Hok | lia].
      * apply floor_random_times_bounds; [exact Hok | lia].
  - left. unfold allowRequest. repeat case_decide; reflexivity.
  - left. reflexivity.
Qed.

Lemma step_into_closed (cfg : Config) (o : Op) (b : Breaker) :
  state b <> CLOSED -> state (step cfg o b) = CLOSED ->
  state b = HALF_OPEN /\ cooldownMs (step cfg o b) = baseCooldownMs cfg.
Proof.
  destruct o as [t rnd success| t |]; simpl.
  - unfold record. repeat case_decide; destruct success; simpl;
      intuition congruence.
  - unfold allowRequest. repeat case_decide; simpl; intuition congruence.
  - intuition congruence.
Qed.

Lemma run_snoc (cfg : Config) (ops : list Op) (o : Op) (b : Breaker) :
  run cfg (ops ++ [o]) b = step cfg o (run cfg ops b).
Proof. unfold run. now rewrite foldl_snoc. Qed.

Lemma reachable_step (cfg : Config) (o : Op) (b : Breaker) :
  reachable cfg b -> op_ok o -> reachable cfg (step cfg o b).
Proof.
  intros (ops & Hok & ->) Ho. exists (ops ++ [o]). split.
  - apply Forall_app. split; [exact Hok | now constructor].
  - now rewrite run_snoc.
Qed.

Lemma reachable_ind_step (cfg : Config) (P : Breaker -> Prop) :
  P (init cfg) ->
  (forall o b, op_ok o -> P b -> P (step cfg o b)) ->
  forall b, reachable cfg b -> P b.
Proof.
  intros Hinit Hstep b (ops & Hok & ->).
  induction ops as [|o ops IH] using rev_ind; [exact Hinit|].
  apply Forall_app in Hok as [Hops Ho]. rewrite run_snoc.
  apply Hstep; [now inversion Ho | now apply IH].
Qed.

Lemma reachable_cooldown (cfg : Config) (b : Breaker) :
  reachable cfg b ->
  cooldownMs b = baseCooldownMs cfg \/ cooldownMs b < maxCooldownMs + 250.
Proof.
  revert b. apply reachable_ind_step; [now left|].
  intros o b Ho IH.
  destruct (step_cooldown cfg o b Ho)
    as [-> | [(_ & _ & ->) | (_ & _ & t & rnd & j & _ & Hj & ->)]];
    [exact IH | now left | right; lia].
Qed.

(** C4 (as amended): in every reachable breaker history, a failed probe
    sets the cooldown to min(2 * previous cooldown, maxCooldown) plus a
    jitter in [0, 250): ignoring the jitter the new cooldown is at most
    maxCooldown, and at least twice the previous cooldown whenever that
    does not exceed maxCooldown; with the jitter it stays below
    maxCooldown + 250, and it is not smaller than a previous cooldown
    between 0 and maxCooldown. Every transition into CLOSED resets the
    cooldown to the base cooldown, and no other operation changes it. A
    reachable cooldown is the base cooldown or is below maxCooldown + 250. *)
Theorem C4_cooldown_amended (cfg : Config) (o : Op) (b : Breaker) :
  reachable cfg b ->
  op_ok o ->
  (cooldownMs b = baseCooldownMs cfg \/ cooldownMs b < maxCooldownMs + 250) /\
  (forall t rnd, o = OpRecord t rnd false -> state b = HALF_OPEN ->
     state (step cfg o b) = OPEN /\
     exists jitter, 0 <= jitter < 250 /\
       cooldownMs (step cfg o b) = Z.min (cooldownMs b * 2) maxCooldownMs + jitter /\
       cooldownMs (step cfg o b) - jitter <= maxCooldownMs /\
       cooldownMs (step cfg o b) < maxCooldownMs + 250 /\
       (cooldownMs b * 2 <= maxCooldownMs ->
        cooldownMs b * 2 <= cooldownMs (step cfg o b) - jitter) /\
       (0 <= cooldownMs b <= maxCooldownMs ->
        cooldownMs b <= cooldownMs (step cfg o b))) /\
  (state b <> CLOSED -> state (step cfg o b) = CLOSED ->
   cooldownMs (step cfg o b) = baseCooldownMs cfg) /\
  (cooldownMs (step cfg o b) <> cooldownMs b ->
   state b = HALF_OPEN /\
   ((state (step cfg o b) = CLOSED /\ exists t rnd, o = OpRecord t rnd true) \/
    (state (step cfg o b) = OPEN /\ exists t rnd, o = OpRecord t rnd false))).
Proof.
  intros Hreach Ho. split; [now apply reachable_cooldown|]. split; [|split].
  - intros t rnd -> Hs. simpl in Ho.
    destruct (record_failed_probe cfg t rnd b Ho Hs) as (Hst & (j & Hj & Hc) & _).
    split; [exact Hst|]. exists j. simpl. rewrite Hc. unfold maxCooldownMs.
    repeat split; lia.
  - intros Hnc Hc. now apply step_into_closed.
  - intros Hne. destruct o as [t rnd success| t |]; simpl in *.
    + revert Hne. unfold record. repeat case_decide; destruct success; simpl;
        intros Hne; try congruence; (split; [assumption|]); eauto.
    + revert Hne. unfold allowRequest. repeat case_decide; simpl; congruence.
    + congruence.
Qed.

Lemma C4_cooldown_amended_witness :
  state (step defaults (OpRecord 15000 draw_high false) (half_open tripped)) = OPEN /\
  cooldownMs (step defaults (OpRecord 15000 draw_high false) (half_open tripped))
    < maxCooldownMs + 250.
Proof.
  assert (Hreach : reachable defaults (half_open tripped)).
  { exists (tripping ++ [OpAllow 15000]). split; [|reflexivity].
    repeat constructor; unfold rand_ok; simpl; lia. }
  assert (Hok : op_ok (OpRecord 15000 draw_high false)).
  { unfold op_ok, rand_ok; simpl; lia. }
  destruct (C4_cooldown_amended defaults _ _ Hreach Hok) as (_ & Hprobe & _).
  destruct (Hprobe 15000 draw_high eq_refl eq_refl)
    as (Hst & j & _ & _ & _ & Hlt & _).
  split; [exact Hst | exact Hlt].
Defined.

(** C4 fails as stated: after three failed probes in a row the reachable
    cooldown 120249 exceeds maxCooldown, and the fourth failed probe lowers
    it to 120000, which is less than twice the previous cooldown. *)
Lemma C4_cooldown_exceeds_cap_then_shrinks :
  reachable defaults escalated /\
  state escalated = OPEN /\
  cooldownMs escalated = 120249 /\
  maxCooldownMs < cooldownMs escalated /\
  state (fst (allowRequest 225249 escalated)) = HALF_OPEN /\
  cooldownMs (record defaults 225249 draw_low false
                (fst (allowRequest 225249 escalated))) = 120000 /\
  ~ cooldownMs escalated
      <= cooldownMs (record defaults 225249 draw_low false
                       (fst (allowRequest 225249 escalated))) /\
  ~ 2 * cooldownMs escalated
      <= cooldownMs (record defaults 225249 draw_low false
                       (fst (allowRequest 225249 escalated)))
         - floor_random_times draw_low 250.
Proof.
  split.
  { exists escalating. split; [|reflexivity].
    repeat constructor; unfold rand_ok; simpl; lia. }
  vm_compute. intuition congruence.
Qed.

(** *** Which operations write which fields *)

(** C5 (as amended): [record] is the sole mutator of the failure
    timestamps, of [nextAttemptAt] and of the cooldown: [allowRequest]
    changes none of these three on any input, and [getState] changes
    nothing. The state is written by [record] and by [allowRequest];
    [allowRequest] changes it only from OPEN to HALF_OPEN, when now is at
    or after [nextAttemptAt], and otherwise leaves the breaker as it is. *)
Theorem C5_allowRequest_frame_amended (cfg : Config) (t : Z) (b : Breaker) :
  failures (fst (allowRequest t b)) = failures b /\
  nextAttemptAt (fst (allowRequest t b)) = nextAttemptAt b /\
  cooldownMs (fst (allowRequest t b)) = cooldownMs b /\
  (fst (allowRequest t b) = b \/
   (state b = OPEN /\ nextAttemptAt b <= t /\
    fst (allowRequest t b) = half_open b)) /\
  step cfg OpGetState b = b /\
  getState b = state b.
Proof.
  unfold allowRequest, half_open. repeat case_decide; simpl; repeat split; auto.
Qed.

(** C5 fails as stated: in a reachable state, [allowRequest] changes the
    field [state]. *)
Lemma C5_allowRequest_mutates_state :
  reachable defaults tripped /\
  state tripped = OPEN /\
  state (fst (allowRequest 15000 tripped)) = HALF_OPEN /\
  state (fst (allowRequest 15000 tripped)) <> state tripped.
Proof.
  split.
  { exists tripping. split; [|reflexivity].
    repeat constructor; unfold rand_ok; simpl; lia. }
  vm_compute. intuition congruence.
Qed.

(** *** Admission while HALF_OPEN *)

Lemma allow_all_probes (ts : list Z) (b : Breaker) :
  (length (filter is_probe (snd (allow_all ts b))) <= 1)%nat /\
  (state b <> OPEN -> filter is_probe (snd (allow_all ts b)) = []).
Proof.
  assert (Hno : forall l b0, state b0 <> OPEN ->
            filter is_probe (snd (allow_all l b0)) = []).
  { intros l b0 Hs. rewrite allow_all_not_open by exact Hs. simpl.
    induction (length l) as [|n IH]; simpl; [reflexivity|].
    rewrite filter_cons_False by (unfold is_probe; simpl; congruence). exact IH. }
  split; [|apply Hno].
  revert b. induction ts as [|t ts IH]; intros b; simpl; [lia|].
  destruct (decide (state b = OPEN)) as [Hs|Hs].
  - destruct (decide (nextAttemptAt b <= t)) as [Ht|Ht].
    + rewrite allowRequest_open_due by assumption.
      pose proof (Hno ts (half_open b) ltac:(simpl; congruence)) as Hrest.
      destruct (allow_all ts (half_open b)) as [b2 l]. simpl in *.
      rewrite Hrest. simpl. lia.
    + rewrite allowRequest_open_early by (assumption || lia).
      specialize (IH b). destruct (allow_all ts b) as [b2 l]. simpl in *.
      exact IH.
  - rewrite allowRequest_not_open by exact Hs.
    specialize (IH b). destruct (allow_all ts b) as [b2 l]. simpl in *.
    exact IH.
Qed.

(** C9: in a sequence of [allowRequest] calls with no [record] call in
    between, at most one call returns probe=true; the call that moves the
    breaker from OPEN to HALF_OPEN returns probe=true, and every call made
    afterwards, while the state is HALF_OPEN, leaves the breaker as it is
    and returns allowed=true with probe=false, however many there are. *)
Theorem C9_half_open_admits_non_probes (b : Breaker) (t : Z) (ts more : list Z) :
  state b = OPEN ->
  nextAttemptAt b <= t ->
  (length (filter is_probe (snd (allow_all more b))) <= 1)%nat /\
  allowRequest t b =
    (half_open b, {| allowed := true; probe := true; retryAfter := 0 |}) /\
  state (half_open b) = HALF_OPEN /\
  allow_all ts (half_open b) =
    (half_open b,
     replicate (length ts) {| allowed := true; probe := false; retryAfter := 0 |}) /\
  snd (allow_all (t :: ts) b) =
    {| allowed := true; probe := true; retryAfter := 0 |}
    :: replicate (length ts) {| allowed := true; probe := false; retryAfter := 0 |}.
Proof.
  intros Hs Ht.
  assert (Hh : state (half_open b) <> OPEN) by (simpl; congruence).
  split; [apply allow_all_probes|].
  split; [now apply allowRequest_open_due|].
  split; [reflexivity|].
  split; [now apply allow_all_not_open|].
  simpl. rewrite allowRequest_open_due by assumption.
  rewrite allow_all_not_open by exact Hh. reflexivity.
Qed.

Lemma C9_half_open_admits_non_probes_witness :
  snd (allow_all [15000; 15001; 15002] tripped) =
    [{| allowed := true; probe := true; retryAfter := 0 |};
     {| allowed := true; probe := false; retryAfter := 0 |};
     {| allowed := true; probe := false; retryAfter := 0 |}].
Proof.
  destruct (C9_half_open_admits_non_probes tripped 15000 [15001; 15002] []
              eq_refl ltac:(vm_compute; discriminate)) as (_ & _ & _ & _ & H).
  exact H.
Defined.

(** *** A sequence of requests recorded while CLOSED *)

Lemma C1_closed_opens_iff_window_count_witness :
  state (record defaults 2000 draw_low false
           (record_all defaults
              [{| at_ := 0; draw := draw_low; ok := false |};
               {| at_ := 1000; draw := draw_low; ok := false |}]
              (init defaults))) = OPEN.
Proof.
  destruct (C1_closed_opens_iff_window_count defaults
              [{| at_ := 0; draw := draw_low; ok := false |};
               {| at_ := 1000; draw := draw_low; ok := false |}]
              2000 draw_low false (init defaults))
    as (_ & Hopen & _).
  - reflexivity.
  - reflexivity.
  - reflexivity.
  - intros c Hc. apply elem_of_cons in Hc as [-> | Hc]; [simpl; lia|].
    apply list_elem_of_singleton in Hc as ->. simpl; lia.
  - apply Hopen. vm_compute. discriminate.
Defined.

(** *** The transition graph *)

(** X1: one operation moves the state along an edge of the breaker's graph
    or leaves it: CLOSED to OPEN and HALF_OPEN to CLOSED or OPEN only by
    [record], OPEN to HALF_OPEN only by an [allowRequest] at or after
    [nextAttemptAt]. In particular OPEN never becomes CLOSED and CLOSED
    never becomes HALF_OPEN in one operation. *)
Theorem X1_step_transitions (cfg : Config) (o : Op) (b : Breaker) :
  state (step cfg o b) = state b \/
  (state b = CLOSED /\ state (step cfg o b) = OPEN /\
   exists t rnd success,
     o = OpRecord t rnd success /\
     maxFailures cfg <= Z.of_nat (length (failures (step cfg o b)))) \/
  (state b = OPEN /\ state (step cfg o b) = HALF_OPEN /\
   exists t, o = OpAllow t /\ nextAttemptAt b <= t) \/
  (state b = HALF_OPEN /\ state (step cfg o b) = CLOSED /\
   exists t rnd, o = OpRecord t rnd true) \/
  (state b = HALF_OPEN /\ state (step cfg o b) = OPEN /\
   exists t rnd, o = OpRecord t rnd false).
Proof.
  destruct o as [t rnd success| t |]; simpl.
  - unfold record. repeat case_decide; simpl.
    + right; left. intuition eauto.
    + destruct success; simpl; [right; right; right; left | do 4 right]; eauto.
    + now left.
  - unfold allowRequest. repeat case_decide; simpl; try (now left).
    right; right; left. eauto.
  - now left.
Qed.

(** *** Outcomes recorded while OPEN *)

Lemma record_open (cfg : Config) t rnd success b :
  state b = OPEN ->
  state (record cfg t rnd success b) = OPEN /\
  nextAttemptAt (record cfg t rnd success b) = nextAttemptAt b /\
  cooldownMs (record cfg t rnd success b) = cooldownMs b.
Proof. intros Hs. record_cases. Qed.

(** X2: while the breaker is OPEN, no sequence of recorded outcomes,
    successes included, changes the state, [nextAttemptAt] or the
    cooldown; only [allowRequest] ends the OPEN state. *)
Theorem X2_record_all_while_open (cfg : Config) (calls : list Call) (b : Breaker) :
  state b = OPEN ->
  state (record_all cfg calls b) = OPEN /\
  nextAttemptAt (record_all cfg calls b) = nextAttemptAt b /\
  cooldownMs (record_all cfg calls b) = cooldownMs b.
Proof.
  revert b. induction calls as [|c calls IH]; intros b Hs; simpl; [auto|].
  destruct (record_open cfg (at_ c) (draw c) (ok c) b Hs) as (Hs' & Hn & Hc).
  destruct (IH _ Hs') as (IHs & IHn & IHc). unfold record_call.
  rewrite IHn, IHc. auto.
Qed.

Lemma X2_record_all_while_open_witness :
  state (record_all defaults
           [{| at_ := 5; draw := draw_low; ok := true |};
            {| at_ := 40000; draw := draw_low; ok := true |}] tripped) = OPEN /\
  nextAttemptAt (record_all defaults
           [{| at_ := 5; draw := draw_low; ok := true |};
            {| at_ := 40000; draw := draw_low; ok := true |}] tripped) = 15000.
Proof.
  destruct (X2_record_all_while_open defaults
              [{| at_ := 5; draw := draw_low; ok := true |};
               {| at_ := 40000; draw := draw_low; ok := true |}] tripped eq_refl)
    as (Hs & Hn & _).
  split; [exact Hs | exact Hn].
Defined.

(** *** Invariants of reachable breakers *)

Lemma step_closed_count (cfg : Config) (o : Op) (b : Breaker) :
  0 < maxFailures cfg ->
  (state b = CLOSED -> Z.of_nat (length (failures b)) < maxFailures cfg) ->
  state (step cfg o b) = CLOSED ->
  Z.of_nat (length (failures (step cfg o b))) < maxFailures cfg.
Proof.
  intros Hmax IH. destruct o as [t rnd success| t |]; simpl.
  - unfold record. repeat case_decide; simpl; try congruence.
    + destruct success; simpl; [intros _; exact Hmax | congruence].
    + intros Hs. destruct (decide
        (maxFailures cfg <=
         Z.of_nat (length (if success then evict cfg t (failures b)
                           else evict cfg t (failures b) ++ [t])))); [tauto | lia].
  - unfold allowRequest. repeat case_decide; simpl; try congruence; exact IH.
  - exact IH.
Qed.

(** X3: with a positive failure threshold, a reachable breaker that is
    CLOSED holds fewer than [maxFailures] failure timestamps. *)
Theorem X3_closed_below_threshold (cfg : Config) (b : Breaker) :
  0 < maxFailures cfg ->
  reachable cfg b ->
  state b = CLOSED ->
  Z.of_nat (length (failures b)) < maxFailures cfg.
Proof.
  intros Hmax. revert b.
  apply (reachable_ind_step cfg
           (fun b => state b = CLOSED ->
                     Z.of_nat (length (failures b)) < maxFailures cfg)).
  - intros _. exact Hmax.
  - intros o b _ IH. now apply step_closed_count.
Qed.

Lemma X3_closed_below_threshold_witness :
  Z.of_nat (length (failures
     (run defaults [OpRecord 0 draw_low false; OpRecord 1 draw_low false]
        (init defaults)))) < 3.
Proof.
  apply (X3_closed_below_threshold defaults
           (run defaults [OpRecord 0 draw_low false; OpRecord 1 draw_low false]
              (init defaults))).
  - reflexivity.
  - eexists. split; [|reflexivity].
    repeat constructor; unfold rand_ok; simpl; lia.
  - reflexivity.
Defined.

Lemma reachable_cooldown_positive (cfg : Config) (b : Breaker) :
  0 < baseCooldownMs cfg -> reachable cfg b -> 0 < cooldownMs b.
Proof.
  intros Hbase. revert b.
  apply (reachable_ind_step cfg (fun b => 0 < cooldownMs b)); [exact Hbase|].
  intros o b Ho IH.
  destruct (step_cooldown cfg o b Ho)
    as [-> | [(_ & _ & ->) | (_ & _ & t & rnd & j & _ & Hj & ->)]];
    [exact IH | exact Hbase | unfold maxCooldownMs; lia].
Qed.

(** X4: when the base cooldown lies between 1 and [maxCooldownMs], the
    cooldown of a reachable breaker is never below the base cooldown and
    stays below [maxCooldownMs] + 250. *)
Theorem X4_cooldown_between_base_and_cap (cfg : Config) (b : Breaker) :
  0 < baseCooldownMs cfg <= maxCooldownMs ->
  reachable cfg b ->
  baseCooldownMs cfg <= cooldownMs b < maxCooldownMs + 250.
Proof.
  intros Hbase. revert b.
  apply (reachable_ind_step cfg
           (fun b => baseCooldownMs cfg <= cooldownMs b < maxCooldownMs + 250));
    [simpl; lia|].
  intros o b Ho IH.
  destruct (step_cooldown cfg o b Ho)
    as [-> | [(_ & _ & ->) | (_ & _ & t & rnd & j & _ & Hj & ->)]];
    [exact IH | lia | unfold maxCooldownMs in *; lia].
Qed.

Lemma X4_cooldown_between_base_and_cap_witness :
  15000 <= cooldownMs escalated < maxCooldownMs + 250.
Proof.
  apply (X4_cooldown_between_base_and_cap defaults escalated).
  - vm_compute. split; [reflexivity | discriminate].
  - exists escalating. split; [|reflexivity].
    repeat constructor; unfold rand_ok; simpl; lia.
Defined.

Lemma record_opens (cfg : Config) t rnd success b :
  state b <> OPEN ->
  state (record cfg t rnd success b) = OPEN ->
  0 <= floor_random_times rnd 250 ->
  0 < cooldownMs b ->
  nextAttemptAt (record cfg t rnd success b)
    = t + cooldownMs (record cfg t rnd success b) /\
  0 < cooldownMs (record cfg t rnd success b).
Proof.
  intros Hs. unfold record. repeat case_decide; simpl; try congruence.
  - intros _ _ Hc. auto.
  - destruct success; simpl; [congruence|]. intros _ Hj Hc. split; lia.
Qed.

(** X5: with a positive base cooldown, whenever a [record] call at instant
    [t] opens a reachable breaker, [nextAttemptAt] is [t] plus the cooldown
    then in force, which is in the future: every [allowRequest] before
    that instant, one at [t] itself included, is denied and leaves the
    breaker OPEN. *)
Theorem X5_opening_sets_future_deadline
    (cfg : Config) (t t' : Z) (rnd : Rand) (success : bool) (b : Breaker) :
  0 < baseCooldownMs cfg ->
  reachable cfg b ->
  rand_ok rnd ->
  state b <> OPEN ->
  state (record cfg t rnd success b) = OPEN ->
  t' < t + cooldownMs (record cfg t rnd success b) ->
  nextAttemptAt (record cfg t rnd success b)
    = t + cooldownMs (record cfg t rnd success b) /\
  t < nextAttemptAt (record cfg t rnd success b) /\
  allowed (snd (allowRequest t (record cfg t rnd success b))) = false /\
  allowed (snd (allowRequest t' (record cfg t rnd success b))) = false /\
  fst (allowRequest t' (record cfg t rnd success b)) = record cfg t rnd success b.
Proof.
  intros Hbase Hreach Hrnd Hs Hopen Ht'.
  destruct (record_opens cfg t rnd success b Hs Hopen) as [Hn Hc].
  { apply floor_random_times_bounds; [exact Hrnd | lia]. }
  { now apply reachable_cooldown_positive with cfg. }
  split; [exact Hn|]. split; [lia|].
  rewrite !allowRequest_open_early by (assumption || lia). auto.
Qed.

Lemma X5_opening_sets_future_deadline_witness :
  allowed (snd (allowRequest 7
     (record defaults 7 draw_low false
        (run defaults [OpRecord 0 draw_low false; OpRecord 1 draw_low false]
           (init defaults))))) = false.
Proof.
  destruct (X5_opening_sets_future_deadline defaults 7 7 draw_low false
              (run defaults [OpRecord 0 draw_low false; OpRecord 1 draw_low false]
                 (init defaults)))
    as (_ & _ & H & _).
  - reflexivity.
  - eexists. split; [|reflexivity].
    repeat constructor; unfold rand_ok; simpl; lia.
  - unfold rand_ok; simpl; lia.
  - vm_compute. discriminate.
  - reflexivity.
  - vm_compute. reflexivity.
  - exact H.
Defined.

(** *** Isolated failures and bursts *)

Lemma evict_all (cfg : Config) (t : Z) (l : list Z) :
  (forall ts, ts ∈ l -> ts + windowMs cfg <= t) -> evict cfg t l = [].
Proof.
  unfold evict. induction l as [|x l IH]; intros Hold; [reflexivity|].
  rewrite filter_cons_False.
  - apply IH. intros ts Hts. apply Hold. now right.
  - specialize (Hold x ltac:(left)). lia.
Qed.

Lemma evict_none (cfg : Config) (t : Z) (l : list Z) :
  (forall ts, ts ∈ l -> t - ts < windowMs cfg) -> evict cfg t l = l.
Proof.
  unfold evict. induction l as [|x l IH]; intros Hnew; [reflexivity|].
  rewrite filter_cons_True by (apply Hnew; left).
  f_equal. apply IH. intros ts Hts. apply Hnew. now right.
Qed.

Lemma isolated_step (cfg : Config) (prev : Z) (c : Call) (b : Breaker) :
  2 <= maxFailures cfg ->
  state b = CLOSED ->
  (forall ts, ts ∈ failures b -> ts <= prev) ->
  prev + windowMs cfg <= at_ c ->
  state (record_call cfg b c) = CLOSED /\
  failures (record_call cfg b c) = pushed (at_ c) (ok c).
Proof.
  intros Hmax Hs Hold Hgap. unfold record_call.
  assert (Hf : failures (record cfg (at_ c) (draw c) (ok c) b) = pushed (at_ c) (ok c)).
  { rewrite record_failures by congruence. rewrite evict_all; [reflexivity|].
    intros ts Hts. specialize (Hold ts Hts). lia. }
  split; [|exact Hf].
  rewrite record_state_closed by exact Hs.
  rewrite <- (record_failures cfg (at_ c) (draw c) (ok c) b) by congruence.
  rewrite Hf.
  rewrite decide_False; [reflexivity|].
  unfold pushed. destruct (ok c); simpl; lia.
Qed.

(** X6: with a threshold of at least 2, failures that come at least one
    window apart never open the breaker, however many there are: every
    call evicts what is left of the earlier ones, the breaker stays CLOSED
    and holds at most one timestamp. *)
Theorem X6_isolated_failures_never_open
    (cfg : Config) (prev : Z) (calls : list Call) (b : Breaker) :
  2 <= maxFailures cfg ->
  state b = CLOSED ->
  (forall ts, ts ∈ failures b -> ts <= prev) ->
  spaced_after (windowMs cfg) prev calls ->
  state (record_all cfg calls b) = CLOSED /\
  (calls <> [] -> (length (failures (record_all cfg calls b)) <= 1)%nat).
Proof.
  intros Hmax. revert prev b.
  induction calls as [|c calls IH]; intros prev b Hs Hold Hsp; simpl.
  - split; [exact Hs | congruence].
  - destruct Hsp as [Hgap Hsp].
    destruct (isolated_step cfg prev c b Hmax Hs Hold Hgap) as [Hs1 Hf1].
    destruct (IH (at_ c) (record_call cfg b c) Hs1) as [Hfin Hlen]; [|exact Hsp|].
    { intros ts. rewrite Hf1. unfold pushed. destruct (ok c).
      - intros Hin. inversion Hin.
      - intros Hin. apply list_elem_of_singleton in Hin. lia. }
    split; [exact Hfin|]. intros _.
    destruct calls as [|c' calls']; [|apply Hlen; congruence].
    simpl. rewrite Hf1. unfold pushed. destruct (ok c); simpl; lia.
Qed.

Lemma X6_isolated_failures_never_open_witness :
  state (record_all defaults
           [{| at_ := 0; draw := draw_low; ok := false |};
            {| at_ := 30000; draw := draw_low; ok := false |};
            {| at_ := 60000; draw := draw_low; ok := false |};
            {| at_ := 90000; draw := draw_low; ok := false |}]
           (init defaults)) = CLOSED.
Proof.
  apply (X6_isolated_failures_never_open defaults (-30000)).
  - vm_compute. discriminate.
  - reflexivity.
  - intros ts Hin. inversion Hin.
  - simpl. lia.
Defined.

Lemma burst_app (w : Z) (l k : list Call) :
  burst w (l ++ k) -> burst w l.
Proof. intros Hb c c' Hc Hc'. apply Hb; apply elem_of_app; now left. Qed.

Lemma burst_failures (cfg : Config) (calls : list Call) (b : Breaker) :
  all_fail calls ->
  burst (windowMs cfg) calls ->
  state b <> HALF_OPEN ->
  (forall ts c, ts ∈ failures b -> c ∈ calls -> at_ c - ts < windowMs cfg) ->
  failures (record_all cfg calls b) = failures b ++ (at_ <$> calls).
Proof.
  intros Hfail. revert b. induction Hfail as [|c calls Hc _ IH];
    intros b Hburst Hs Hnew; simpl.
  - now rewrite app_nil_r.
  - assert (Hf : failures (record_call cfg b c) = failures b ++ [at_ c]).
    { unfold record_call. rewrite record_failures by exact Hs.
      rewrite Hc. simpl. rewrite evict_none; [reflexivity|].
      intros ts Hts. apply Hnew; [exact Hts | left]. }
    rewrite IH.
    + rewrite Hf, <- app_assoc. reflexivity.
    + intros c1 c2 H1 H2. apply Hburst; now right.
    + apply record_not_half_open.
    + intros ts c' Hts Hc'. rewrite Hf in Hts.
      apply elem_of_app in Hts as [Hts|Hts].
      * apply Hnew; [exact Hts | now right].
      * apply list_elem_of_singleton in Hts as ->.
        apply Hburst; [left | now right].
Qed.

Lemma record_keeps_cooldown (cfg : Config) t rnd success b :
  state b <> HALF_OPEN ->
  cooldownMs (record cfg t rnd success b) = cooldownMs b.
Proof. intros Hs. record_cases. Qed.

Lemma record_opening_deadline (cfg : Config) t rnd success b :
  state b = CLOSED ->
  state (record cfg t rnd success b) = OPEN ->
  nextAttemptAt (record cfg t rnd success b) = t + cooldownMs b.
Proof. intros Hs. record_cases. Qed.

Lemma burst_record_all (cfg : Config) (calls : list Call) :
  1 <= maxFailures cfg ->
  all_fail calls ->
  burst (windowMs cfg) calls ->
  failures (record_all cfg calls (init cfg)) = at_ <$> calls /\
  state (record_all cfg calls (init cfg)) =
    (if decide (maxFailures cfg <= Z.of_nat (length calls)) then OPEN else CLOSED) /\
  cooldownMs (record_all cfg calls (init cfg)) = baseCooldownMs cfg /\
  (forall c, calls !! (Z.to_nat (maxFailures cfg) - 1)%nat = Some c ->
     nextAttemptAt (record_all cfg calls (init cfg)) = at_ c + baseCooldownMs cfg).
Proof.
  intros Hmax. induction calls as [|c calls IH] using rev_ind; intros Hfail Hburst.
  - simpl. repeat split. + rewrite decide_False by (simpl; lia). reflexivity.
    + intros c Hc. inversion Hc.
  - pose proof Hfail as Hfail'. apply Forall_app in Hfail' as [Hfl Hc].
    destruct (IH Hfl (burst_app _ _ _ Hburst)) as (IHf & IHs & IHc & IHn).
    assert (Hf := burst_failures cfg (calls ++ [c]) (init cfg) Hfail Hburst
                    ltac:(simpl; congruence) ltac:(intros ts c0 Hin; inversion Hin)).
    simpl in Hf.
    assert (Hnh : state (record_all cfg calls (init cfg)) <> HALF_OPEN).
    { rewrite IHs. case_decide; congruence. }
    split; [exact Hf|]. rewrite record_all_snoc. unfold record_call.
    rewrite length_app. simpl.
    split; [|split].
    + destruct (decide (maxFailures cfg <= Z.of_nat (length calls))) as [Hge|Hlt].
      * destruct (record_open cfg (at_ c) (draw c) (ok c) _ IHs) as (-> & _).
        rewrite decide_True by lia. reflexivity.
      * rewrite record_state_closed by exact IHs.
        rewrite <- (record_failures cfg (at_ c) (draw c) (ok c)) by exact Hnh.
        change (record cfg (at_ c) (draw c) (ok c) (record_all cfg calls (init cfg)))
          with (record_call cfg (record_all cfg calls (init cfg)) c).
        rewrite <- record_all_snoc, Hf, length_fmap, length_app. simpl.
        reflexivity.
    + rewrite record_keeps_cooldown by exact Hnh. exact IHc.
    + intros c0 Hc0.
      destruct (decide (maxFailures cfg <= Z.of_nat (length calls))) as [Hge|Hlt].
      * destruct (record_open cfg (at_ c) (draw c) (ok c) _ IHs) as (_ & -> & _).
        apply IHn. rewrite lookup_app_l in Hc0 by lia. exact Hc0.
      * assert (Hidx : (Z.to_nat (maxFailures cfg) - 1 >= length calls)%nat) by lia.
        destruct (decide (Z.to_nat (maxFailures cfg) - 1 = length calls)%nat) as [He|Hne].
        -- rewrite He, list_lookup_middle in Hc0 by reflexivity.
           injection Hc0 as <-.
           rewrite record_opening_deadline; [now rewrite IHc | exact IHs |].
           rewrite record_state_closed by exact IHs.
           rewrite <- (record_failures cfg (at_ c) (draw c) (ok c)) by exact Hnh.
           change (record cfg (at_ c) (draw c) (ok c) (record_all cfg calls (init cfg)))
             with (record_call cfg (record_all cfg calls (init cfg)) c).
           rewrite <- record_all_snoc, Hf, length_fmap, length_app. simpl.
           rewrite decide_True by lia. reflexivity.
        -- rewrite lookup_ge_None_2 in Hc0; [discriminate|].
           rewrite length_app. simpl. lia.
Qed.

(** X7: from the initial state, a burst of failed requests, any two of
    them less than one window apart, leaves every timestamp in the list;
    the breaker is OPEN exactly when the number of failures has reached
    [maxFailures], and [nextAttemptAt] is then the instant of the
    [maxFailures]-th failure plus the base cooldown. *)
Theorem X7_burst_opens_at_threshold (cfg : Config) (calls : list Call) :
  1 <= maxFailures cfg ->
  all_fail calls ->
  burst (windowMs cfg) calls ->
  failures (record_all cfg calls (init cfg)) = at_ <$> calls /\
  state (record_all cfg calls (init cfg)) =
    (if decide (maxFailures cfg <= Z.of_nat (length calls)) then OPEN else CLOSED) /\
  cooldownMs (record_all cfg calls (init cfg)) = baseCooldownMs cfg /\
  (forall c, calls !! (Z.to_nat (maxFailures cfg) - 1)%nat = Some c ->
     nextAttemptAt (record_all cfg calls (init cfg)) = at_ c + baseCooldownMs cfg).
Proof. apply burst_record_all. Qed.

Lemma X7_burst_opens_at_threshold_witness :
  state (record_all defaults
           [{| at_ := 0; draw := draw_low; ok := false |};
            {| at_ := 2000; draw := draw_low; ok := false |};
            {| at_ := 4000; draw := draw_low; ok := false |}]
           (init defaults)) = OPEN /\
  nextAttemptAt (record_all defaults
           [{| at_ := 0; draw := draw_low; ok := false |};
            {| at_ := 2000; draw := draw_low; ok := false |};
            {| at_ := 4000; draw := draw_low; ok := false |}]
           (init defaults)) = 19000.
Proof.
  destruct (X7_burst_opens_at_threshold defaults
           [{| at_ := 0; draw := draw_low; ok := false |};
            {| at_ := 2000; draw := draw_low; ok := false |};
            {| at_ := 4000; draw := draw_low; ok := false |}])
    as (_ & Hs & _ & Hn).
  - vm_compute. discriminate.
  - repeat constructor.
  - intros c c' Hc Hc'.
    repeat (apply elem_of_cons in Hc as [-> | Hc]);
    repeat (apply elem_of_cons in Hc' as [-> | Hc']);
    try (inversion Hc); try (inversion Hc'); simpl; lia.
  - split; [exact Hs|]. exact (Hn _ eq_refl).
Defined.

(** *** The Retry-After hint *)

(** X8: a denied [allowRequest] happens only in the OPEN state, leaves the
    breaker as it is and reports a [retryAfter] of at least 1 that is the
    smallest number of whole seconds reaching [nextAttemptAt]: waiting
    that many seconds suffices, the next [allowRequest] then starts the
    probe, and one second less would not reach [nextAttemptAt]. *)
Theorem X8_retry_after_suffices (t : Z) (b : Breaker) :
  allowed (snd (allowRequest t b)) = false ->
  state b = OPEN /\
  fst (allowRequest t b) = b /\
  1 <= retryAfter (snd (allowRequest t b)) /\
  t + 1000 * (retryAfter (snd (allowRequest t b)) - 1) < nextAttemptAt b /\
  nextAttemptAt b <= t + 1000 * retryAfter (snd (allowRequest t b)) /\
  allowRequest (t + 1000 * retryAfter (snd (allowRequest t b))) b =
    (half_open b, {| allowed := true; probe := true; retryAfter := 0 |}).
Proof.
  unfold allowRequest at 1. repeat case_decide; simpl; try discriminate.
  intros _. rewrite allowRequest_open_early by (assumption || lia). simpl.
  pose proof (ceil_div_spec (nextAttemptAt b - t) 1000 ltac:(lia)) as Hc.
  pose proof (ceil_div_pos (nextAttemptAt b - t) 1000 ltac:(lia) ltac:(lia)).
  repeat split; try assumption; try lia.
  apply allowRequest_open_due; [assumption | lia].
Qed.

Lemma X8_retry_after_suffices_witness :
  retryAfter (snd (allowRequest 100 tripped)) = 15 /\
  allowed (snd (allowRequest (100 + 1000 * 15) tripped)) = true.
Proof.
  destruct (X8_retry_after_suffices 100 tripped eq_refl)
    as (_ & _ & _ & _ & _ & H).
  split; [reflexivity|]. change 15 with (retryAfter (snd (allowRequest 100 tripped))).
  now rewrite H.
Defined.

End CBFacts.

(** ** The retry executor *)

Module RetryFacts.

Import Retry.

Lemma attempts_step (a : nat) (ms : Z) (tr : list Event) :
  attempts (Attempt a :: Wait ms :: tr) = a :: attempts tr.
Proof. reflexivity. Qed.

Lemma waits_step (a : nat) (ms : Z) (tr : list Event) :
  waits (Attempt a :: Wait ms :: tr) = ms :: waits tr.
Proof. reflexivity. Qed.

Section Executor.

Context {Json : Type}.
Variable upstream : nat -> FetchResult Json.
Variable rnds : nat -> Rand.
Variable baseMs : Z.

Lemma retry_loop_success (k attempt : nat) (lastErr : option Error) :
  succeeds (upstream attempt) ->
  exists resp, upstream attempt = Fetched resp /\
    retry_loop upstream rnds baseMs (S k) attempt lastErr =
      ([Attempt attempt], Returned resp).
Proof.
  intros Hok. simpl. destruct (upstream attempt) as [resp|]; [|contradiction].
  exists resp. simpl in Hok. now rewrite Hok.
Qed.

Lemma retry_loop_non_retryable (k attempt : nat) (lastErr : option Error) :
  non_retryable (upstream attempt) ->
  exists resp, upstream attempt = Fetched resp /\
    retry_loop upstream rnds baseMs (S k) attempt lastErr =
      ([Attempt attempt], Thrown (UpstreamStatus (status resp))).
Proof.
  intros Hnr. simpl. destruct (upstream attempt) as [resp|]; [|contradiction].
  exists resp. destruct Hnr as [Hok Hst]. rewrite Hok.
  now rewrite decide_False by lia.
Qed.

Lemma retry_loop_retryable (k attempt : nat) (lastErr : option Error) :
  retryable (upstream attempt) ->
  exists resp, upstream attempt = Fetched resp /\
    retry_loop upstream rnds baseMs (S k) attempt lastErr =
      (Attempt attempt :: Wait (backoff rnds baseMs attempt)
         :: fst (retry_loop upstream rnds baseMs k (S attempt)
                   (Some (UpstreamStatus (status resp)))),
       snd (retry_loop upstream rnds baseMs k (S attempt)
              (Some (UpstreamStatus (status resp))))).
Proof.
  intros Hr. simpl. destruct (upstream attempt) as [resp|]; [|contradiction].
  exists resp. destruct Hr as [Hok Hst]. rewrite Hok.
  rewrite decide_True by exact Hst.
  now destruct (retry_loop _ _ _ _ _ _).
Qed.

(** The error that an exhausted loop throws: the status of the last
    attempt, or the error carried so far when no iteration is left. *)
Lemma retry_loop_exhausted (k attempt : nat) (lastErr : option Error) :
  (forall a, (attempt <= a < attempt + k)%nat -> retryable (upstream a)) ->
  attempts (fst (retry_loop upstream rnds baseMs k attempt lastErr))
    = seq attempt k /\
  waits (fst (retry_loop upstream rnds baseMs k attempt lastErr))
    = backoff rnds baseMs <$> seq attempt k /\
  exists e, snd (retry_loop upstream rnds baseMs k attempt lastErr) = Thrown e /\
    match k with
    | O => e = default UpstreamError lastErr
    | S k' => exists resp, upstream (attempt + k')%nat = Fetched resp /\
                e = UpstreamStatus (status resp)
    end.
Proof.
  revert attempt lastErr. induction k as [|k IH]; intros attempt lastErr Hall.
  - simpl. repeat split. eexists; split; reflexivity.
  - destruct (retry_loop_retryable k attempt lastErr) as (resp & Hup & ->).
    { apply Hall. lia. }
    destruct (IH (S attempt) (Some (UpstreamStatus (status resp))))
      as (Hatt & Hw & e & He & Hlast).
    { intros a Ha. apply Hall. lia. }
    cbn [fst snd]. split; [|split].
    + rewrite attempts_step, Hatt. reflexivity.
    + rewrite waits_step, Hw. reflexivity.
    + exists e. split; [exact He|]. destruct k as [|k'].
      * exists resp. rewrite Nat.add_0_r. split; [exact Hup|]. exact Hlast.
      * destruct Hlast as (resp' & Hup' & ->). exists resp'.
        split; [|reflexivity]. rewrite <- Hup'. f_equal. lia.
Qed.

(** A non-retryable failure ends the loop at once: no wait follows it and
    no later attempt is made. *)
Lemma retry_loop_stops (k n attempt : nat) (lastErr : option Error) :
  (forall a, (attempt <= a < attempt + n)%nat -> retryable (upstream a)) ->
  non_retryable (upstream (attempt + n)%nat) ->
  (n < k)%nat ->
  attempts (fst (retry_loop upstream rnds baseMs k attempt lastErr))
    = seq attempt (S n) /\
  waits (fst (retry_loop upstream rnds baseMs k attempt lastErr))
    = backoff rnds baseMs <$> seq attempt n /\
  exists resp, upstream (attempt + n)%nat = Fetched resp /\
    snd (retry_loop upstream rnds baseMs k attempt lastErr)
      = Thrown (UpstreamStatus (status resp)).
Proof.
  revert k attempt lastErr. induction n as [|n IH]; intros k attempt lastErr Hall Hnr Hk.
  - destruct k as [|k]; [lia|]. rewrite Nat.add_0_r in Hnr.
    destruct (retry_loop_non_retryable k attempt lastErr Hnr) as (resp & Hup & ->).
    repeat split. exists resp. rewrite Nat.add_0_r. split; [exact Hup|reflexivity].
  - destruct k as [|k]; [lia|].
    destruct (retry_loop_retryable k attempt lastErr) as (resp & Hup & ->).
    { apply Hall. lia. }
    destruct (IH k (S attempt) (Some (UpstreamStatus (status resp))))
      as (Hatt & Hw & resp' & Hup' & Hout).
    { intros a Ha. apply Hall. lia. }
    { replace (S attempt + n)%nat with (attempt + S n)%nat by lia. exact Hnr. }
    { lia. }
    cbn [fst snd]. split; [|split].
    + rewrite attempts_step, Hatt. reflexivity.
    + rewrite waits_step, Hw. reflexivity.
    + exists resp'. split; [|exact Hout].
      rewrite <- Hup'. f_equal. lia.
Qed.

(** C7: with retryable failures on attempts 0 and 1, success on attempt 2
    and max = 3, [postWithRetry] returns the successful response after
    exactly two waits, of baseMs * 2^0 + jitter and baseMs * 2^1 + jitter,
    each jitter at least 0 and below 50 ms. *)
Theorem C7_two_failures_then_success :
  retryable (upstream 0) ->
  retryable (upstream 1) ->
  succeeds (upstream 2) ->
  rand_ok (rnds 0) ->
  rand_ok (rnds 1) ->
  exists resp j0 j1,
    upstream 2%nat = Fetched resp /\
    0 <= j0 < 50 /\ 0 <= j1 < 50 /\
    postWithRetry upstream rnds baseMs 3 =
      ([Attempt 0; Wait (baseMs * 2 ^ 0 + j0);
        Attempt 1; Wait (baseMs * 2 ^ 1 + j1);
        Attempt 2],
       Returned resp) /\
    waits (fst (postWithRetry upstream rnds baseMs 3)) =
      [baseMs * 1 + j0; baseMs * 2 + j1].
Proof.
  intros H0 H1 H2 Hr0 Hr1. unfold postWithRetry.
  destruct (retry_loop_retryable 2 0 None H0) as (r0 & _ & ->).
  destruct (retry_loop_retryable 1 1 (Some (UpstreamStatus (status r0))) H1)
    as (r1 & _ & ->).
  destruct (retry_loop_success 0 2 (Some (UpstreamStatus (status r1))) H2)
    as (resp & Hup & ->).
  exists resp, (floor_random_times (rnds 0%nat) 50),
    (floor_random_times (rnds 1%nat) 50).
  split; [exact Hup|].
  split; [apply floor_random_times_bounds; [exact Hr0 | lia]|].
  split; [apply floor_random_times_bounds; [exact Hr1 | lia]|].
  split; reflexivity.
Qed.

(** *** Extra properties of the executor *)

Lemma attempts_one (a : nat) : attempts [Attempt a] = [a].
Proof. reflexivity. Qed.

Lemma waits_one (a : nat) : waits [Attempt a] = [].
Proof. reflexivity. Qed.

(** Past [n] retryable failures the loop goes on as a loop that starts at
    attempt [attempt + n]. *)
Lemma retry_loop_skip (n k attempt : nat) (lastErr : option Error) :
  (forall a, (attempt <= a < attempt + n)%nat -> retryable (upstream a)) ->
  exists le,
    attempts (fst (retry_loop upstream rnds baseMs (n + k) attempt lastErr)) =
      seq attempt n ++
      attempts (fst (retry_loop upstream rnds baseMs k (attempt + n) le)) /\
    waits (fst (retry_loop upstream rnds baseMs (n + k) attempt lastErr)) =
      (backoff rnds baseMs <$> seq attempt n) ++
      waits (fst (retry_loop upstream rnds baseMs k (attempt + n) le)) /\
    snd (retry_loop upstream rnds baseMs (n + k) attempt lastErr) =
      snd (retry_loop upstream rnds baseMs k (attempt + n) le).
Proof.
  revert attempt lastErr. induction n as [|n IH]; intros attempt lastErr Hall.
  - exists lastErr. rewrite Nat.add_0_r. simpl. auto.
  - change (S n + k)%nat with (S (n + k)).
    destruct (retry_loop_retryable (n + k) attempt lastErr) as (resp & Hup & ->).
    { apply Hall. lia. }
    destruct (IH (S attempt) (Some (UpstreamStatus (status resp))))
      as (le & Hatt & Hw & Hout).
    { intros a Ha. apply Hall. lia. }
    exists le. cbn [fst snd].
    replace (attempt + S n)%nat with (S attempt + n)%nat by lia.
    rewrite attempts_step, waits_step, Hatt, Hw, Hout. auto.
Qed.

(** X9: when attempts 0 to n-1 fail with retryable errors and attempt n
    succeeds, with n below max, [postWithRetry] returns the response of
    attempt n after exactly n + 1 attempts and n waits, the wait after
    attempt a being the backoff of a; no attempt and no wait follows the
    success. *)
Theorem X9_success_ends_the_loop (max n : nat) :
  (forall a, (a < n)%nat -> retryable (upstream a)) ->
  succeeds (upstream n) ->
  (n < max)%nat ->
  exists resp,
    upstream n = Fetched resp /\
    snd (postWithRetry upstream rnds baseMs max) = Returned resp /\
    attempts (fst (postWithRetry upstream rnds baseMs max)) = seq 0 (S n) /\
    waits (fst (postWithRetry upstream rnds baseMs max)) =
      backoff rnds baseMs <$> seq 0 n.
Proof.
  intros Hall Hok Hn. unfold postWithRetry.
  replace max with (n + S (max - S n))%nat by lia.
  destruct (retry_loop_skip n (S (max - S n)) 0 None) as (le & Hatt & Hw & Hout).
  { intros a Ha. apply Hall. lia. }
  change (0 + n)%nat with n in Hatt, Hw, Hout. rewrite Hatt, Hw, Hout.
  destruct (retry_loop_success (max - S n) n le Hok) as (resp & Hup & ->).
  exists resp. cbn [fst snd]. rewrite attempts_one, waits_one, app_nil_r.
  repeat split; try assumption.
  rewrite seq_S. reflexivity.
Qed.

(** X10: when attempts 0 to n-1 fail with retryable errors and attempt n
    fails with a non-retryable one (not ok, status below 500), with n
    below max, [postWithRetry] throws the error of that status at once:
    n + 1 attempts, n waits, none after the failure. *)
Theorem X10_non_retryable_ends_the_loop (max n : nat) :
  (forall a, (a < n)%nat -> retryable (upstream a)) ->
  non_retryable (upstream n) ->
  (n < max)%nat ->
  exists resp,
    upstream n = Fetched resp /\
    snd (postWithRetry upstream rnds baseMs max) =
      Thrown (UpstreamStatus (status resp)) /\
    attempts (fst (postWithRetry upstream rnds baseMs max)) = seq 0 (S n) /\
    waits (fst (postWithRetry upstream rnds baseMs max)) =
      backoff rnds baseMs <$> seq 0 n.
Proof.
  intros Hall Hnr Hn. unfold postWithRetry.
  destruct (retry_loop_stops max n 0 None) as (Hatt & Hw & resp & Hup & Hout);
    try assumption.
  { intros a Ha. apply Hall. lia. }
  exists resp. auto.
Qed.

(** X11: a [fetch] that rejects is not retried: when attempts 0 to n-1 fail
    with retryable errors and the fetch of attempt n rejects, with n below
    max, [postWithRetry] rejects after that attempt, with no wait after
    it. *)
Theorem X11_rejected_fetch_not_retried (max n : nat) :
  (forall a, (a < n)%nat -> retryable (upstream a)) ->
  upstream n = Rejected ->
  (n < max)%nat ->
  snd (postWithRetry upstream rnds baseMs max) = Thrown FetchError /\
  attempts (fst (postWithRetry upstream rnds baseMs max)) = seq 0 (S n) /\
  waits (fst (postWithRetry upstream rnds baseMs max)) =
    backoff rnds baseMs <$> seq 0 n.
Proof.
  intros Hall Hrej Hn. unfold postWithRetry.
  replace max with (n + S (max - S n))%nat by lia.
  destruct (retry_loop_skip n (S (max - S n)) 0 None) as (le & Hatt & Hw & Hout).
  { intros a Ha. apply Hall. lia. }
  change (0 + n)%nat with n in Hatt, Hw, Hout. rewrite Hatt, Hw, Hout.
  cbn [retry_loop]. rewrite Hrej. cbn [fst snd].
  rewrite attempts_one, waits_one, app_nil_r.
  repeat split. rewrite seq_S. reflexivity.
Qed.

(** X12: when all max attempts fail with retryable errors, max at least 1,
    [postWithRetry] makes exactly max attempts, numbered 0 to max - 1 in
    order, and throws the error of the status of the last attempt. *)
Theorem X12_exhaustion_throws_last_error (max : nat) :
  (1 <= max)%nat ->
  (forall a, (a < max)%nat -> retryable (upstream a)) ->
  attempts (fst (postWithRetry upstream rnds baseMs max)) = seq 0 max /\
  exists resp,
    upstream (max - 1)%nat = Fetched resp /\
    snd (postWithRetry upstream rnds baseMs max) =
      Thrown (UpstreamStatus (status resp)).
Proof.
  intros Hmax Hall. unfold postWithRetry.
  destruct (retry_loop_exhausted max 0 None) as (Hatt & _ & e & He & Hlast).
  { intros a Ha. apply Hall. lia. }
  split; [exact Hatt|]. destruct max as [|k]; [lia|].
  destruct Hlast as (resp & Hup & ->). exists resp.
  replace (S k - 1)%nat with k by lia. auto.
Qed.

Lemma retry_loop_shape (k attempt : nat) (lastErr : option Error) :
  exists m,
    (m <= k)%nat /\
    attempts (fst (retry_loop upstream rnds baseMs k attempt lastErr)) = seq attempt m /\
    (length (waits (fst (retry_loop upstream rnds baseMs k attempt lastErr))) <= m)%nat /\
    forall resp,
      snd (retry_loop upstream rnds baseMs k attempt lastErr) = Returned resp ->
      resp_ok resp = true /\ (1 <= m)%nat /\
      upstream (attempt + m - 1)%nat = Fetched resp /\
      length (waits (fst (retry_loop upstream rnds baseMs k attempt lastErr)))
        = (m - 1)%nat.
Proof.
  revert attempt lastErr. induction k as [|k IH]; intros attempt lastErr.
  - exists 0%nat. simpl. split; [lia|]. split; [reflexivity|]. split; [lia|].
    intros resp Hr. discriminate.
  - cbn [retry_loop]. destruct (upstream attempt) as [resp|] eqn:Hup.
    + destruct (resp_ok resp) eqn:Hok.
      * exists 1%nat. cbn [fst snd]. rewrite attempts_one, waits_one.
        split; [lia|]. split; [reflexivity|]. split; [simpl; lia|].
        intros r Hr. injection Hr as <-.
        replace (attempt + 1 - 1)%nat with attempt by lia. auto.
      * destruct (decide (500 <= status resp)).
        -- destruct (IH (S attempt) (Some (UpstreamStatus (status resp))))
             as (m & Hm & Hatt & Hw & Hret).
           destruct (retry_loop upstream rnds baseMs k (S attempt) _) as [tr out].
           cbn [fst snd] in *. exists (S m).
           rewrite attempts_step, waits_step, Hatt. cbn [length].
           split; [lia|]. split; [reflexivity|]. split; [lia|].
           intros r Hr. destruct (Hret r Hr) as (Hrok & Hm1 & Hrup & Hrw).
           split; [exact Hrok|]. split; [lia|]. split; [|lia].
           rewrite <- Hrup. f_equal. lia.
        -- exists 1%nat. cbn [fst snd]. rewrite attempts_one, waits_one.
           split; [lia|]. split; [reflexivity|]. split; [simpl; lia|].
           intros r Hr. discriminate.
    + exists 1%nat. cbn [fst snd]. rewrite attempts_one, waits_one.
      split; [lia|]. split; [reflexivity|]. split; [simpl; lia|].
      intros r Hr. discriminate.
Qed.

(** X13: whatever the upstream does, [postWithRetry] makes at most max
    attempts, numbered from 0 in order, and at most one wait per attempt;
    a response it returns is ok, is the response of the last attempt made,
    and no wait follows it. *)
Theorem X13_attempts_bounded_and_result_ok (max : nat) :
  exists m,
    (m <= max)%nat /\
    attempts (fst (postWithRetry upstream rnds baseMs max)) = seq 0 m /\
    (length (waits (fst (postWithRetry upstream rnds baseMs max))) <= m)%nat /\
    forall resp,
      snd (postWithRetry upstream rnds baseMs max) = Returned resp ->
      resp_ok resp = true /\ (1 <= m)%nat /\
      upstream (m - 1)%nat = Fetched resp /\
      length (waits (fst (postWithRetry upstream rnds baseMs max))) = (m - 1)%nat.
Proof.
  destruct (retry_loop_shape max 0 None) as (m & Hm & Hatt & Hw & Hret).
  exists m. split; [exact Hm|]. split; [exact Hatt|]. split; [exact Hw|].
  intros resp Hr. destruct (Hret resp Hr) as (H1 & H2 & H3 & H4). auto.
Qed.

Lemma retry_loop_fallback (k attempt : nat) (lastErr : option Error) :
  lastErr <> Some UpstreamError ->
  snd (retry_loop upstream rnds baseMs k attempt lastErr) = Thrown UpstreamError ->
  k = 0%nat /\ lastErr = None.
Proof.
  revert attempt lastErr. induction k as [|k IH]; intros attempt lastErr Hle.
  - simpl. destruct lastErr as [e|]; simpl; [|auto]. intros [= ->]. congruence.
  - simpl. destruct (upstream attempt) as [resp|]; [|discriminate].
    destruct (resp_ok resp); [discriminate|].
    destruct (decide (500 <= status resp)); [|discriminate].
    specialize (IH (S attempt) (Some (UpstreamStatus (status resp)))
                  ltac:(discriminate)).
    destruct (retry_loop upstream rnds baseMs k (S attempt) _) as [tr out].
    simpl in *. intros Hout. destruct (IH Hout) as [_ Hnone]. discriminate.
Qed.

(** X14: the fallback error 'Upstream error' is thrown exactly when max is
    0, and then without any attempt or wait; with max at least 1 every
    call makes a first attempt. *)
Theorem X14_fallback_error_iff_no_attempt (max : nat) :
  (snd (postWithRetry upstream rnds baseMs max) = Thrown UpstreamError <-> max = 0%nat) /\
  (fst (postWithRetry upstream rnds baseMs max) = [] <-> max = 0%nat).
Proof.
  unfold postWithRetry. split; split.
  - intros Hout. now destruct (retry_loop_fallback max 0 None ltac:(discriminate) Hout).
  - intros ->. reflexivity.
  - destruct max as [|k]; [reflexivity|]. simpl.
    destruct (upstream 0%nat) as [resp|]; [|discriminate].
    destruct (resp_ok resp); [discriminate|].
    destruct (decide (500 <= status resp)); [|discriminate].
    destruct (retry_loop upstream rnds baseMs k 1 _). discriminate.
  - intros ->. reflexivity.
Qed.

(** X15: the backoff of attempt a lies between baseMs * 2^a and
    baseMs * 2^a + 49; and with a base delay of at least 50 ms each backoff
    is strictly longer than the one before. *)
Theorem X15_backoff_bounds (a : nat) :
  rand_ok (rnds a) ->
  rand_ok (rnds (S a)) ->
  baseMs * 2 ^ Z.of_nat a <= backoff rnds baseMs a <= baseMs * 2 ^ Z.of_nat a + 49 /\
  (50 <= baseMs -> backoff rnds baseMs a < backoff rnds baseMs (S a)).
Proof.
  intros Hr Hr'. unfold backoff.
  pose proof (floor_random_times_bounds (rnds a) 50 Hr ltac:(lia)).
  pose proof (floor_random_times_bounds (rnds (S a)) 50 Hr' ltac:(lia)).
  rewrite Nat2Z.inj_succ, Z.pow_succ_r by lia.
  pose proof (Z.pow_pos_nonneg 2 (Z.of_nat a) ltac:(lia) ltac:(lia)).
  split; [lia|]. intros Hb. nia.
Qed.

End Executor.

Lemma X9_success_ends_the_loop_witness :
  exists resp,
    snd (postWithRetry recovers_at_2 no_jitter 200 3) = Returned resp /\
    waits (fst (postWithRetry recovers_at_2 no_jitter 200 3)) = [200; 400].
Proof.
  destruct (X9_success_ends_the_loop recovers_at_2 no_jitter 200 3 2)
    as (resp & _ & Hout & _ & Hw).
  - intros a Ha. unfold recovers_at_2. rewrite decide_True by exact Ha.
    split; [reflexivity | simpl; lia].
  - reflexivity.
  - lia.
  - exists resp. split; [exact Hout|]. rewrite Hw. reflexivity.
Defined.

Lemma X10_non_retryable_ends_the_loop_witness :
  attempts (fst (postWithRetry always_404 no_jitter 200 3)) = [0%nat] /\
  waits (fst (postWithRetry always_404 no_jitter 200 3)) = [].
Proof.
  destruct (X10_non_retryable_ends_the_loop always_404 no_jitter 200 3 0)
    as (resp & _ & _ & Hatt & Hw).
  - intros a Ha. lia.
  - split; [reflexivity | simpl; lia].
  - lia.
  - rewrite Hatt, Hw. split; reflexivity.
Defined.

Lemma X11_rejected_fetch_not_retried_witness :
  snd (postWithRetry rejects_at_1 no_jitter 200 3) = Thrown FetchError /\
  attempts (fst (postWithRetry rejects_at_1 no_jitter 200 3)) = [0; 1]%nat.
Proof.
  destruct (X11_rejected_fetch_not_retried rejects_at_1 no_jitter 200 3 1)
    as (Hout & Hatt & _).
  - intros a Ha. unfold rejects_at_1. rewrite decide_True by exact Ha.
    split; [reflexivity | simpl; lia].
  - reflexivity.
  - lia.
  - rewrite Hatt. split; [exact Hout | reflexivity].
Defined.

Lemma X12_exhaustion_throws_last_error_witness :
  attempts (fst (postWithRetry always_503 no_jitter 200 3)) = [0; 1; 2]%nat.
Proof.
  destruct (X12_exhaustion_throws_last_error always_503 no_jitter 200 3)
    as (Hatt & _).
  - lia.
  - intros a _. split; [reflexivity | simpl; lia].
  - rewrite Hatt. reflexivity.
Defined.

Lemma X15_backoff_bounds_witness :
  backoff no_jitter 200 3 < backoff no_jitter 200 4.
Proof.
  destruct (X15_backoff_bounds no_jitter 200 3) as (_ & Hgrow).
  - unfold rand_ok; simpl; lia.
  - unfold rand_ok; simpl; lia.
  - apply Hgrow. lia.
Defined.

Lemma C7_two_failures_then_success_witness :
  exists resp,
    snd (postWithRetry recovers_at_2 no_jitter 200 3) = Returned resp /\
    length (waits (fst (postWithRetry recovers_at_2 no_jitter 200 3))) = 2%nat.
Proof.
  destruct (C7_two_failures_then_success recovers_at_2 no_jitter 200)
    as (resp & j0 & j1 & _ & _ & _ & Hrun & Hwaits).
  - split; [reflexivity | simpl; lia].
  - split; [reflexivity | simpl; lia].
  - reflexivity.
  - unfold rand_ok; simpl; lia.
  - unfold rand_ok; simpl; lia.
  - exists resp. rewrite Hwaits, Hrun. split; reflexivity.
Defined.

(** C6, at the input where the code departs from it: with max = 3 and a
    503 on every attempt, [postWithRetry] throws the last upstream error
    after three attempts, and it has waited three times, the third time
    after the final attempt; the claim allows max - 1 = 2 waits. *)
Theorem C6_waits_after_final_attempt :
  postWithRetry always_503 no_jitter 200 3 =
    ([Attempt 0; Wait 200; Attempt 1; Wait 400; Attempt 2; Wait 800],
     Thrown (UpstreamStatus 503)) /\
  length (waits (fst (postWithRetry always_503 no_jitter 200 3))) = 3%nat /\
  length (waits (fst (postWithRetry always_503 no_jitter 200 3))) <> (3 - 1)%nat /\
  last (fst (postWithRetry always_503 no_jitter 200 3)) = Some (Wait 800).
Proof. repeat split. vm_compute. discriminate. Qed.

End RetryFacts.

(** ** The write path *)

Module AddEventFacts.

Import AddEvent.

Section Handler.

Context {Json : Type}.
Variable cfg : CB.Config.
Variable retryBaseMs : Z.

(** The reply of the [catch] branch. *)
Lemma handler_thrown (retryMax : nat) (tAllow tRecord : Z) (cbRnd : Rand)
    (upstream : nat -> FetchResult Json) (rnds : nat -> Rand) (b : CB.Breaker)
    (e : Error) :
  CB.allowed (snd (CB.allowRequest tAllow b)) = true ->
  snd (Retry.postWithRetry upstream rnds retryBaseMs retryMax) = Thrown e ->
  handler cfg retryMax retryBaseMs tAllow tRecord cbRnd upstream rnds b =
    (CB.record cfg tRecord cbRnd false (fst (CB.allowRequest tAllow b)),
     fst (Retry.postWithRetry upstream rnds retryBaseMs retryMax),
     {| code := 503; retryAfterHeader := None;
        payload := Failure "Upstream unavailable"
                     (if CB.probe (snd (CB.allowRequest tAllow b))
                      then "probe_failed" else "retry_exhausted") None |}).
Proof.
  unfold handler. destruct (CB.allowRequest tAllow b) as [b1 adm]. simpl.
  intros -> Hout. simpl.
  destruct (Retry.postWithRetry upstream rnds retryBaseMs retryMax) as [tr out].
  simpl in Hout. subst out. reflexivity.
Qed.

(** C10: on the write path, an admitted request whose first attempt yields
    a non-retryable upstream failure (not ok, status below 500) is answered
    503 with reason 'retry_exhausted', or 'probe_failed' if it was admitted
    as the probe, after that single attempt and with the failure recorded
    in the breaker; the reply is equal to the reply given when all
    [retryMax] attempts fail with retryable errors, so the body does not
    tell the two apart. *)
Theorem C10_non_retryable_reported_as_exhausted
    (retryMax : nat) (tAllow tRecord : Z) (cbRnd : Rand)
    (upstream exhausted : nat -> FetchResult Json) (rnds rnds' : nat -> Rand)
    (b : CB.Breaker) :
  (1 <= retryMax)%nat ->
  CB.allowed (snd (CB.allowRequest tAllow b)) = true ->
  Retry.non_retryable (upstream 0%nat) ->
  (forall a, (a < retryMax)%nat -> Retry.retryable (exhausted a)) ->
  handler cfg retryMax retryBaseMs tAllow tRecord cbRnd upstream rnds b =
    (CB.record cfg tRecord cbRnd false (fst (CB.allowRequest tAllow b)),
     [Retry.Attempt 0],
     {| code := 503; retryAfterHeader := None;
        payload := Failure "Upstream unavailable"
                     (if CB.probe (snd (CB.allowRequest tAllow b))
                      then "probe_failed" else "retry_exhausted") None |}) /\
  snd (handler cfg retryMax retryBaseMs tAllow tRecord cbRnd exhausted rnds' b) =
  snd (handler cfg retryMax retryBaseMs tAllow tRecord cbRnd upstream rnds b).
Proof.
  intros Hmax Hadm Hnr Hex.
  destruct retryMax as [|k]; [lia|].
  destruct (RetryFacts.retry_loop_non_retryable upstream rnds retryBaseMs k 0 None Hnr)
    as (resp & Hup & Hrun).
  destruct (RetryFacts.retry_loop_exhausted exhausted rnds' retryBaseMs (S k) 0 None)
    as (_ & _ & e & He & _).
  { intros a Ha. apply Hex. lia. }
  rewrite (handler_thrown (S k) tAllow tRecord cbRnd upstream rnds b
             (UpstreamStatus (status resp)) Hadm)
    by (unfold Retry.postWithRetry; now rewrite Hrun).
  rewrite (handler_thrown (S k) tAllow tRecord cbRnd exhausted rnds' b e Hadm)
    by exact He.
  split; [|reflexivity].
  unfold Retry.postWithRetry. now rewrite Hrun.
Qed.

(** *** Extra properties of the handler *)

Lemma handler_denied (retryMax : nat) (tAllow tRecord : Z) (cbRnd : Rand)
    (upstream : nat -> FetchResult Json) (rnds : nat -> Rand) (b : CB.Breaker) :
  CB.allowed (snd (CB.allowRequest tAllow b)) = false ->
  handler cfg retryMax retryBaseMs tAllow tRecord cbRnd upstream rnds b =
    (b, [], circuit_open_reply (CB.retryAfter (snd (CB.allowRequest tAllow b)))).
Proof.
  intros Hden. unfold handler.
  assert (Hb : fst (CB.allowRequest tAllow b) = b).
  { revert Hden. unfold CB.allowRequest. repeat case_decide; simpl;
      intros; congruence. }
  destruct (CB.allowRequest tAllow b) as [b1 adm]. simpl in *.
  rewrite Hden. simpl. subst b1. reflexivity.
Qed.

Lemma handler_returned (retryMax : nat) (tAllow tRecord : Z) (cbRnd : Rand)
    (upstream : nat -> FetchResult Json) (rnds : nat -> Rand) (b : CB.Breaker)
    (resp : Response Json) :
  CB.allowed (snd (CB.allowRequest tAllow b)) = true ->
  snd (Retry.postWithRetry upstream rnds retryBaseMs retryMax) = Returned resp ->
  handler cfg retryMax retryBaseMs tAllow tRecord cbRnd upstream rnds b =
    match body resp with
    | Some data =>
        (CB.record cfg tRecord cbRnd true (fst (CB.allowRequest tAllow b)),
         fst (Retry.postWithRetry upstream rnds retryBaseMs retryMax),
         success_reply data)
    | None =>
        (CB.record cfg tRecord cbRnd false (fst (CB.allowRequest tAllow b)),
         fst (Retry.postWithRetry upstream rnds retryBaseMs retryMax),
         unavailable_reply (CB.probe (snd (CB.allowRequest tAllow b))))
    end.
Proof.
  unfold handler. destruct (CB.allowRequest tAllow b) as [b1 adm]. simpl.
  intros -> Hout. simpl.
  destruct (Retry.postWithRetry upstream rnds retryBaseMs retryMax) as [tr out].
  simpl in Hout. subst out. simpl. destruct (body resp); reflexivity.
Qed.

(** X16: while the breaker is OPEN and [nextAttemptAt] has not come, the
    handler answers 503 with reason 'circuit_open' and the same
    whole-second hint, at least 1, in the Retry-After header and in the
    body; it makes no upstream attempt, records nothing and leaves the
    breaker as it is. *)
Theorem X16_open_fails_fast (retryMax : nat) (tAllow tRecord : Z) (cbRnd : Rand)
    (upstream : nat -> FetchResult Json) (rnds : nat -> Rand) (b : CB.Breaker) :
  CB.state b = CB.OPEN ->
  tAllow < CB.nextAttemptAt b ->
  handler cfg retryMax retryBaseMs tAllow tRecord cbRnd upstream rnds b =
    (b, [],
     {| code := 503;
        retryAfterHeader := Some (ceil_div (CB.nextAttemptAt b - tAllow) 1000);
        payload := Failure "Service temporarily unavailable" "circuit_open"
                     (Some (ceil_div (CB.nextAttemptAt b - tAllow) 1000)) |}) /\
  1 <= ceil_div (CB.nextAttemptAt b - tAllow) 1000.
Proof.
  intros Hs Ht.
  pose proof (CBFacts.allowRequest_open_early tAllow b Hs Ht) as Hadm.
  rewrite handler_denied by (now rewrite Hadm).
  rewrite Hadm. split; [reflexivity|]. apply ceil_div_pos; lia.
Qed.

Lemma handler_cases (retryMax : nat) (tAllow tRecord : Z) (cbRnd : Rand)
    (upstream : nat -> FetchResult Json) (rnds : nat -> Rand) (b : CB.Breaker) :
  (CB.allowed (snd (CB.allowRequest tAllow b)) = false /\
   handler cfg retryMax retryBaseMs tAllow tRecord cbRnd upstream rnds b =
     (b, [], circuit_open_reply (CB.retryAfter (snd (CB.allowRequest tAllow b))))) \/
  (CB.allowed (snd (CB.allowRequest tAllow b)) = true /\
   exists data,
     handler cfg retryMax retryBaseMs tAllow tRecord cbRnd upstream rnds b =
       (CB.record cfg tRecord cbRnd true (fst (CB.allowRequest tAllow b)),
        fst (Retry.postWithRetry upstream rnds retryBaseMs retryMax),
        success_reply data)) \/
  (CB.allowed (snd (CB.allowRequest tAllow b)) = true /\
   handler cfg retryMax retryBaseMs tAllow tRecord cbRnd upstream rnds b =
     (CB.record cfg tRecord cbRnd false (fst (CB.allowRequest tAllow b)),
      fst (Retry.postWithRetry upstream rnds retryBaseMs retryMax),
      unavailable_reply (CB.probe (snd (CB.allowRequest tAllow b))))).
Proof.
  destruct (CB.allowed (snd (CB.allowRequest tAllow b))) eqn:Hadm.
  - right.
    destruct (snd (Retry.postWithRetry upstream rnds retryBaseMs retryMax))
      as [resp|e] eqn:Hout.
    + rewrite (handler_returned retryMax tAllow tRecord cbRnd upstream rnds b resp Hadm Hout).
      destruct (body resp) as [data|]; [left | right]; eauto.
    + right. split; [reflexivity|].
      now apply handler_thrown with e.
  - left. split; [reflexivity|]. now apply handler_denied.
Qed.

(** X17: every request is answered in one of three ways. Denied: 503
    'circuit_open' with the Retry-After header, no upstream attempt and
    the breaker untouched. Success: 200 with the upstream's data and one
    [record(true)]. Failure: 503 'Upstream unavailable' with reason
    'probe_failed' or 'retry_exhausted', no header, and one
    [record(false)]. So [record] runs exactly once per admitted request,
    with success exactly when the reply is 200, and no reply carries the
    upstream's error. *)
Theorem X17_reply_classified (retryMax : nat) (tAllow tRecord : Z) (cbRnd : Rand)
    (upstream : nat -> FetchResult Json) (rnds : nat -> Rand) (b : CB.Breaker) :
  (CB.allowed (snd (CB.allowRequest tAllow b)) = false /\
   handler cfg retryMax retryBaseMs tAllow tRecord cbRnd upstream rnds b =
     (b, [], circuit_open_reply (CB.retryAfter (snd (CB.allowRequest tAllow b))))) \/
  (CB.allowed (snd (CB.allowRequest tAllow b)) = true /\
   exists data,
     handler cfg retryMax retryBaseMs tAllow tRecord cbRnd upstream rnds b =
       (CB.record cfg tRecord cbRnd true (fst (CB.allowRequest tAllow b)),
        fst (Retry.postWithRetry upstream rnds retryBaseMs retryMax),
        success_reply data)) \/
  (CB.allowed (snd (CB.allowRequest tAllow b)) = true /\
   handler cfg retryMax retryBaseMs tAllow tRecord cbRnd upstream rnds b =
     (CB.record cfg tRecord cbRnd false (fst (CB.allowRequest tAllow b)),
      fst (Retry.postWithRetry upstream rnds retryBaseMs retryMax),
      unavailable_reply (CB.probe (snd (CB.allowRequest tAllow b))))).
Proof. apply handler_cases. Qed.


(** X19: an ok response whose body does not parse as JSON counts as a
    failure: the admitted request is answered 503 'Upstream unavailable'
    and [record(false)] runs, as for an upstream error. *)
Theorem X19_unparsable_body_is_failure
    (retryMax : nat) (tAllow tRecord : Z) (cbRnd : Rand)
    (upstream : nat -> FetchResult Json) (rnds : nat -> Rand) (b : CB.Breaker)
    (st : Z) :
  (1 <= retryMax)%nat ->
  CB.allowed (snd (CB.allowRequest tAllow b)) = true ->
  upstream 0%nat = Fetched {| status := st; body := None |} ->
  200 <= st <= 299 ->
  handler cfg retryMax retryBaseMs tAllow tRecord cbRnd upstream rnds b =
    (CB.record cfg tRecord cbRnd false (fst (CB.allowRequest tAllow b)),
     [Retry.Attempt 0],
     unavailable_reply (CB.probe (snd (CB.allowRequest tAllow b)))).
Proof.
  intros Hmax Hadm Hup Hst.
  destruct retryMax as [|k]; [lia|].
  assert (Hrun : Retry.postWithRetry upstream rnds retryBaseMs (S k) =
                 ([Retry.Attempt 0], Returned {| status := st; body := None |})).
  { unfold Retry.postWithRetry. simpl. rewrite Hup.
    unfold resp_ok. simpl. rewrite bool_decide_eq_true_2 by lia. reflexivity. }
  rewrite (handler_returned (S k) tAllow tRecord cbRnd upstream rnds b
             {| status := st; body := None |} Hadm) by now rewrite Hrun.
  simpl. now rewrite Hrun.
Qed.

Lemma serve_snoc (retryMax : nat) (reqs : list (@Request Json)) (r : @Request Json)
    (b : CB.Breaker) :
  serve cfg retryMax retryBaseMs (reqs ++ [r]) b =
    (fst (serve_one cfg retryMax retryBaseMs
            (fst (serve cfg retryMax retryBaseMs reqs b)) r),
     snd (serve cfg retryMax retryBaseMs reqs b) ++
     [snd (serve_one cfg retryMax retryBaseMs
             (fst (serve cfg retryMax retryBaseMs reqs b)) r)]).
Proof.
  revert b. induction reqs as [|r0 reqs IH]; intros b; simpl.
  - now destruct (serve_one cfg retryMax retryBaseMs b r).
  - destruct (serve_one cfg retryMax retryBaseMs b r0) as [b1 reply].
    rewrite IH. now destruct (serve cfg retryMax retryBaseMs reqs b1).
Qed.

Lemma serve_one_thrown_closed (retryMax : nat) (r : @Request Json) (b : CB.Breaker) :
  CB.state b = CB.CLOSED ->
  throws retryMax retryBaseMs r ->
  serve_one cfg retryMax retryBaseMs b r =
    (CB.record_call cfg b (failed_call r), unavailable_reply false).
Proof.
  intros Hs [e He]. unfold serve_one.
  pose proof (CBFacts.allowRequest_not_open (tAllow r) b ltac:(congruence)) as Hadm.
  rewrite (handler_thrown retryMax (tAllow r) (tRecord r) (cbRnd r) (upstream r)
             (rnds r) b e) by (now rewrite ?Hadm).
  now rewrite Hadm.
Qed.

(** While fewer than [maxFailures] requests of a burst have failed, the
    breaker is CLOSED and every one of them is answered 'retry_exhausted'. *)
Lemma serve_burst (retryMax : nat) (reqs : list (@Request Json)) :
  1 <= CB.maxFailures cfg ->
  Z.of_nat (length reqs) <= CB.maxFailures cfg ->
  Forall (throws retryMax retryBaseMs) reqs ->
  CB.burst (CB.windowMs cfg) (failed_call <$> reqs) ->
  serve cfg retryMax retryBaseMs reqs (CB.init cfg) =
    (CB.record_all cfg (failed_call <$> reqs) (CB.init cfg),
     replicate (length reqs) (unavailable_reply false)).
Proof.
  intros Hmax. induction reqs as [|r reqs IH] using rev_ind; intros Hlen Hthr Hburst.
  - reflexivity.
  - rewrite length_app in Hlen. simpl in Hlen.
    apply Forall_app in Hthr as [Hthr Hr]. inversion Hr as [|? ? Hr' _]; subst.
    rewrite fmap_app in Hburst.
    rewrite serve_snoc, IH; [|lia|exact Hthr|exact (CBFacts.burst_app _ _ _ Hburst)].
    cbn [fst snd].
    destruct (CBFacts.burst_record_all cfg (failed_call <$> reqs) Hmax)
      as (_ & Hst & _).
    { apply Forall_fmap, Forall_forall. intros; reflexivity. }
    { exact (CBFacts.burst_app _ _ _ Hburst). }
    rewrite length_fmap, decide_False in Hst by lia.
    rewrite serve_one_thrown_closed by assumption. cbn [fst snd].
    rewrite fmap_app. change (failed_call <$> [r]) with [failed_call r].
    rewrite CBFacts.record_all_snoc, length_app. cbn [length].
    rewrite Nat.add_1_r, replicate_S_end. reflexivity.
Qed.

(** X20: from the initial state, when [maxFailures] requests in a row fail
    and their [record] instants are less than one window apart, each of
    them is answered 503 'retry_exhausted'; the last one opens the
    breaker, and a request that then arrives before the base cooldown has
    run out since that last [record] is answered 503 'circuit_open'
    without an upstream attempt. *)
Theorem X20_trip_then_fail_fast
    (retryMax : nat) (reqs : list (@Request Json)) (final next : @Request Json) :
  1 <= CB.maxFailures cfg ->
  Z.of_nat (length (reqs ++ [final])) = CB.maxFailures cfg ->
  Forall (throws retryMax retryBaseMs) (reqs ++ [final]) ->
  CB.burst (CB.windowMs cfg) (failed_call <$> (reqs ++ [final])) ->
  tAllow next < tRecord final + CB.baseCooldownMs cfg ->
  CB.state (fst (serve cfg retryMax retryBaseMs (reqs ++ [final]) (CB.init cfg)))
    = CB.OPEN /\
  snd (serve cfg retryMax retryBaseMs (reqs ++ [final]) (CB.init cfg)) =
    replicate (length reqs + 1) (unavailable_reply false) /\
  handler cfg retryMax retryBaseMs (tAllow next) (tRecord next) (cbRnd next)
    (upstream next) (rnds next)
    (fst (serve cfg retryMax retryBaseMs (reqs ++ [final]) (CB.init cfg))) =
    (fst (serve cfg retryMax retryBaseMs (reqs ++ [final]) (CB.init cfg)), [],
     circuit_open_reply
       (ceil_div (tRecord final + CB.baseCooldownMs cfg - tAllow next) 1000)).
Proof.
  intros Hmax Hlen Hthr Hburst Hnext.
  rewrite (serve_burst retryMax (reqs ++ [final]) Hmax ltac:(lia) Hthr Hburst).
  cbn [fst snd].
  destruct (CBFacts.burst_record_all cfg (failed_call <$> (reqs ++ [final])) Hmax)
    as (_ & Hst & _ & Hn).
  { apply Forall_fmap, Forall_forall. intros; reflexivity. }
  { exact Hburst. }
  rewrite length_fmap, decide_True in Hst by lia.
  specialize (Hn (failed_call final)).
  assert (Hlk : (failed_call <$> reqs ++ [final])
                  !! (Z.to_nat (CB.maxFailures cfg) - 1)%nat
                = Some (failed_call final)).
  { replace (Z.to_nat (CB.maxFailures cfg) - 1)%nat with (length reqs)
      by (rewrite <- Hlen, Nat2Z.id, length_app; simpl; lia).
    rewrite list_lookup_fmap, list_lookup_middle by reflexivity. reflexivity. }
  specialize (Hn Hlk). simpl in Hn.
  split; [exact Hst|]. split; [now rewrite length_app|].
  pose proof (CBFacts.allowRequest_open_early (tAllow next) _ Hst
                ltac:(rewrite Hn; exact Hnext)) as Hadm.
  rewrite handler_denied by (now rewrite Hadm).
  rewrite Hadm. simpl. now rewrite Hn.
Qed.

End Handler.

Lemma X16_open_fails_fast_witness :
  snd (handler CB.defaults 3 200 100 101 CB.draw_low
         Retry.recovers_at_2 Retry.no_jitter CB.tripped) =
    circuit_open_reply 15.
Proof.
  destruct (X16_open_fails_fast CB.defaults 200 3 100 101 CB.draw_low
              Retry.recovers_at_2 Retry.no_jitter CB.tripped) as [Hrun _].
  - reflexivity.
  - vm_compute. reflexivity.
  - rewrite Hrun. reflexivity.
Defined.


Lemma X19_unparsable_body_is_failure_witness :
  snd (handler CB.defaults 3 200 0 1 CB.draw_low
         unparsable_200 Retry.no_jitter (CB.init CB.defaults)) =
    unavailable_reply false.
Proof.
  rewrite (X19_unparsable_body_is_failure CB.defaults 200 3 0 1 CB.draw_low
             unparsable_200 Retry.no_jitter (CB.init CB.defaults) 200).
  - reflexivity.
  - lia.
  - reflexivity.
  - reflexivity.
  - lia.
Defined.

Lemma X20_trip_then_fail_fast_witness :
  snd (handler CB.defaults 3 200 6000 7400 CB.draw_low
         Retry.always_503 Retry.no_jitter
         (fst (serve CB.defaults 3 200
                 ([failing_at 0; failing_at 2000] ++ [failing_at 4000])
                 (CB.init CB.defaults)))) =
    circuit_open_reply 15.
Proof.
  destruct (X20_trip_then_fail_fast CB.defaults 200 3
              [failing_at 0; failing_at 2000] (failing_at 4000) (failing_at 6000))
    as (_ & _ & Hnext).
  - vm_compute. discriminate.
  - reflexivity.
  - repeat constructor; eexists; reflexivity.
  - intros c c' Hc Hc'.
    repeat (apply elem_of_cons in Hc as [-> | Hc]);
    repeat (apply elem_of_cons in Hc' as [-> | Hc']);
    try (inversion Hc); try (inversion Hc'); simpl; lia.
  - simpl. lia.
  - apply (f_equal snd) in Hnext. exact Hnext.
Defined.

Lemma C10_non_retryable_reported_as_exhausted_witness :
  snd (handler CB.defaults 3 200 0 1 CB.draw_low
         Retry.always_404 Retry.no_jitter (CB.init CB.defaults)) =
    {| code := 503; retryAfterHeader := None;
       payload := Failure "Upstream unavailable" "retry_exhausted" None |} /\
  snd (handler CB.defaults 3 200 0 1 CB.draw_low
         Retry.always_503 Retry.no_jitter (CB.init CB.defaults)) =
  snd (handler CB.defaults 3 200 0 1 CB.draw_low
         Retry.always_404 Retry.no_jitter (CB.init CB.defaults)).
Proof.
  destruct (C10_non_retryable_reported_as_exhausted CB.defaults 200 3 0 1
              CB.draw_low Retry.always_404 Retry.always_503
              Retry.no_jitter Retry.no_jitter (CB.init CB.defaults))
    as [Hreply Hsame].
  - lia.
  - reflexivity.
  - split; [reflexivity | simpl; lia].
  - intros a _. split; [reflexivity | simpl; lia].
  - split; [now rewrite Hreply | exact Hsame].
Defined.

End AddEventFacts.

(** ** The bounded fan-out *)

Module FanOutFacts.

Import FanOut.

Local Open Scope nat_scope.

Lemma weight_insert (l : list Worker) (w : nat) (old new : Worker) :
  l !! w = Some old ->
  sum_list_with weight (<[w := new]> l) + weight old =
  sum_list_with weight l + weight new.
Proof.
  revert w. induction l as [|x l IH]; intros [|w] Hw; simpl in *;
    try discriminate.
  - inversion Hw; subst. lia.
  - specialize (IH w Hw). lia.
Qed.

Lemma weight_positive (l : list Worker) :
  0 < sum_list_with weight l ->
  exists w wk, l !! w = Some wk /\ suspended wk = true.
Proof.
  induction l as [|x l IH]; simpl; [lia|]. intros Hpos.
  destruct (suspended x) eqn:Hx.
  - exists 0, x. auto.
  - destruct IH as (w & wk & Hw & Hs).
    { destruct x; simpl in *; try discriminate; lia. }
    exists (S w), wk. auto.
Qed.

Lemma weight_zero (l : list Worker) (w : nat) (wk : Worker) :
  sum_list_with weight l = 0 -> l !! w = Some wk -> weight wk = 0.
Proof.
  intros Hsum Hw.
  pose proof (sum_list_with_in wk weight l) as Hle.
  assert (wk ∈ l) by (apply list_elem_of_lookup; eauto).
  specialize (Hle ltac:(assumption)). lia.
Qed.

Section Executor.

Context {Json EvId : Type}.
Variable eventIds : list EvId.
Variable fetchEvent : nat -> option EvId -> FetchResult Json.
Variable K : nat.

Hypothesis K_positive : 0 < K.
Hypothesis tasks_succeed : all_succeed eventIds fetchEvent.

Local Abbreviation N := (length eventIds).
Local Abbreviation result_of := (task_result eventIds fetchEvent).
Local Abbreviation ok_pool := (consistent eventIds fetchEvent K).
Local Abbreviation start := (spawn (Json:=Json) eventIds K).

Lemma task_ok (i : nat) :
  i < N ->
  exists resp data,
    fetchEvent i (eventIds !! i) = Fetched resp /\
    resp_ok resp = true /\ body resp = Some data /\ result_of i = Some data.
Proof.
  intros Hi. destruct (tasks_succeed i Hi) as [data Hd].
  unfold task_result in *.
  destruct (fetchEvent i (eventIds !! i)) as [resp|]; [|discriminate].
  destruct (resp_ok resp) eqn:Hok; [|discriminate].
  exists resp, data. auto.
Qed.

(** *** Spawning *)

Lemma spawn_workers_claims (n : nat) (p : @Pool Json) :
  cursor p + n <= N ->
  spawn_workers eventIds n p =
    {| cursor := cursor p + n; results := results p;
       workers := workers p ++ (AwaitFetch <$> seq (cursor p) n) |}.
Proof.
  revert p. induction n as [|n IH]; intros [c rs ws] Hle; simpl in *.
  - now rewrite Nat.add_0_r, app_nil_r.
  - unfold enter_loop. rewrite decide_True by lia.
    rewrite IH by (simpl; lia). simpl.
    rewrite <- app_assoc. simpl. f_equal. lia.
Qed.

Lemma spawn_claims :
  start =
    {| cursor := Nat.min K N; results := replicate N None;
       workers := AwaitFetch <$> seq 0 (Nat.min K N) |}.
Proof. unfold spawn. rewrite spawn_workers_claims by (simpl; lia). reflexivity. Qed.

Lemma spawn_lookup (w : nat) (wk : Worker) :
  workers (start) !! w = Some wk ->
  wk = AwaitFetch w /\ w < Nat.min K N.
Proof.
  rewrite spawn_claims. simpl. rewrite list_lookup_fmap.
  destruct (seq 0 (Nat.min K N) !! w) as [j|] eqn:Hj; simpl; [|discriminate].
  apply lookup_seq in Hj as [-> Hlt]. intros [= <-]. auto.
Qed.

Lemma spawn_consistent : ok_pool (start).
Proof.
  split.
  - rewrite spawn_claims. simpl. apply length_replicate.
  - rewrite spawn_claims. simpl. lia.
  - rewrite spawn_claims. simpl. now rewrite length_fmap, length_seq.
  - intros w i [Hw|Hw]; apply spawn_lookup in Hw as [Hw Hlt];
      inversion Hw; subst; rewrite spawn_claims; simpl; lia.
  - intros i Hi. right. exists i. left.
    rewrite spawn_claims in *. simpl in *.
    rewrite list_lookup_fmap, lookup_seq_lt by lia. reflexivity.
  - intros w Hw. apply spawn_lookup in Hw as [Hw _]. discriminate.
  - intros w e Hw. apply spawn_lookup in Hw as [Hw _]. discriminate.
Qed.

Lemma spawn_pending : pending eventIds (start) = 2 * N.
Proof.
  rewrite spawn_claims. unfold pending. simpl.
  assert (Hsum : forall a n,
            sum_list_with weight (@AwaitFetch <$> seq a n) = 2 * n).
  { intros a n. revert a. induction n as [|n IH]; intros a; simpl; [lia|].
    rewrite IH. lia. }
  rewrite Hsum. lia.
Qed.

(** *** One resumption *)

Lemma resume_fetch (w i : nat) (p : Pool) :
  ok_pool p -> workers p !! w = Some (AwaitFetch i) ->
  resume eventIds fetchEvent w p =
    {| cursor := cursor p; results := results p;
       workers := <[w := AwaitJson i]> (workers p) |}.
Proof.
  intros Hc Hw. unfold resume. rewrite Hw.
  destruct (task_ok i) as (resp & data & -> & -> & _).
  { pose proof (c_cursor _ _ _ _ Hc). pose proof (c_held _ _ _ _ Hc w i (or_introl Hw)). lia. }
  reflexivity.
Qed.

Lemma resume_json (w i : nat) (p : Pool) :
  ok_pool p -> workers p !! w = Some (AwaitJson i) ->
  resume eventIds fetchEvent w p =
    {| cursor := fst (enter_loop eventIds (cursor p));
       results := <[i := result_of i]> (results p);
       workers := <[w := snd (enter_loop eventIds (cursor p))]> (workers p) |}.
Proof.
  intros Hc Hw. unfold resume. rewrite Hw.
  destruct (task_ok i) as (resp & data & -> & Hok & Hbody & ->).
  { pose proof (c_cursor _ _ _ _ Hc). pose proof (c_held _ _ _ _ Hc w i (or_intror Hw)). lia. }
  destruct resp as [st bd]. simpl in Hbody. subst bd.
  now destruct (enter_loop eventIds (cursor p)).
Qed.

Lemma resume_idle (w : nat) (p : Pool) :
  (forall wk, workers p !! w = Some wk -> suspended wk = false) ->
  resume eventIds fetchEvent w p = p.
Proof.
  intros Hidle. unfold resume.
  destruct (workers p !! w) as [[i|i| |e]|] eqn:Hw; try reflexivity;
    now specialize (Hidle _ eq_refl).
Qed.

Lemma holds_insert (p : @Pool Json) (c : nat) (rs : list (option Json))
    (w w' i : nat) (wk : Worker) :
  holds {| cursor := c; results := rs; workers := <[w := wk]> (workers p) |} w' i ->
  (w' = w /\ (wk = AwaitFetch i \/ wk = AwaitJson i)) \/ (w' <> w /\ holds p w' i).
Proof.
  unfold holds. simpl. rewrite !list_lookup_insert_Some.
  intros [[(-> & -> & _)|[Hne Hh]]|[(-> & -> & _)|[Hne Hh]]]; auto.
Qed.

Lemma resume_consistent (w : nat) (p : Pool) :
  ok_pool p -> ok_pool (resume eventIds fetchEvent w p).
Proof.
  intros Hc. pose proof Hc as [Hres Hcur Hws Hheld Hfilled Hdone Hfail].
  destruct (workers p !! w) as [[i|i| |e]|] eqn:Hw.
  - (* the fetch has settled *)
    rewrite (resume_fetch w i p Hc Hw).
    assert (Hwlt : w < length (workers p)) by (eapply lookup_lt_Some; eauto).
    split; simpl; try assumption.
    + now rewrite length_insert.
    + intros w' j Hh. apply holds_insert in Hh as [[-> Hj]|[_ Hh]]; [|eauto].
      apply (Hheld w). left. destruct Hj as [Hj|Hj]; inversion Hj; subst; exact Hw.
    + intros j Hj. destruct (Hfilled j Hj) as [Hr|[w' Hh]]; [now left|]. right.
      destruct (decide (w' = w)) as [->|Hne].
      * exists w. right. simpl.
        destruct Hh as [Hh|Hh]; rewrite Hw in Hh; inversion Hh; subst.
        now apply list_lookup_insert_eq.
      * exists w'. unfold holds in *. simpl.
        now rewrite list_lookup_insert_ne by congruence.
    + intros w' Hd. apply list_lookup_insert_Some in Hd as [(_ & Hd & _)|[_ Hd]];
        [discriminate | eauto].
    + intros w' e Hd. apply list_lookup_insert_Some in Hd as [(_ & Hd & _)|[_ Hd]];
        [discriminate | now apply Hfail in Hd].
  - (* the body has been read *)
    rewrite (resume_json w i p Hc Hw).
    assert (Hwlt : w < length (workers p)) by (eapply lookup_lt_Some; eauto).
    assert (Hi : i < cursor p) by (apply (Hheld w); now right).
    unfold enter_loop. destruct (decide (cursor p < N)) as [Hlt|Hge]; simpl.
    + split; simpl.
      * now rewrite length_insert.
      * lia.
      * now rewrite length_insert.
      * intros w' j Hh. apply holds_insert in Hh as [[-> Hj]|[_ Hh]].
        -- destruct Hj as [Hj|Hj]; inversion Hj; subst; lia.
        -- specialize (Hheld _ _ Hh). lia.
      * intros j Hj. destruct (decide (j = cursor p)) as [->|Hjc].
        { right. exists w. left. simpl. now apply list_lookup_insert_eq. }
        destruct (decide (j = i)) as [->|Hji].
        { left. apply list_lookup_insert_eq. lia. }
        destruct (Hfilled j ltac:(lia)) as [Hr|[w' Hh]].
        { left. now rewrite list_lookup_insert_ne by congruence. }
        right. exists w'. unfold holds in *. simpl.
        rewrite list_lookup_insert_ne; [exact Hh|].
        intros ->. destruct Hh as [Hh|Hh]; rewrite Hw in Hh; inversion Hh; congruence.
      * intros w' Hd. apply list_lookup_insert_Some in Hd as [(_ & Hd & _)|[_ Hd]];
          [discriminate|]. apply Hdone in Hd. lia.
      * intros w' e Hd. apply list_lookup_insert_Some in Hd as [(_ & Hd & _)|[_ Hd]];
          [discriminate | now apply Hfail in Hd].
    + split; simpl.
      * now rewrite length_insert.
      * lia.
      * now rewrite length_insert.
      * intros w' j Hh. apply holds_insert in Hh as [[-> Hj]|[_ Hh]].
        -- destruct Hj as [Hj|Hj]; inversion Hj.
        -- eauto.
      * intros j Hj. destruct (decide (j = i)) as [->|Hji].
        { left. apply list_lookup_insert_eq. lia. }
        destruct (Hfilled j Hj) as [Hr|[w' Hh]].
        { left. now rewrite list_lookup_insert_ne by congruence. }
        right. exists w'. unfold holds in *. simpl.
        rewrite list_lookup_insert_ne; [exact Hh|].
        intros ->. destruct Hh as [Hh|Hh]; rewrite Hw in Hh; inversion Hh; congruence.
      * intros w' Hd. lia.
      * intros w' e Hd. apply list_lookup_insert_Some in Hd as [(_ & Hd & _)|[_ Hd]];
          [discriminate | now apply Hfail in Hd].
  - rewrite resume_idle; [exact Hc|]. intros wk. rewrite Hw. now intros [= <-].
  - now apply Hfail in Hw.
  - rewrite resume_idle; [exact Hc|]. intros wk. rewrite Hw. discriminate.
Qed.

Lemma resume_pending (w : nat) (wk : Worker) (p : Pool) :
  ok_pool p -> workers p !! w = Some wk -> suspended wk = true ->
  pending eventIds (resume eventIds fetchEvent w p) + 1 = pending eventIds p.
Proof.
  intros Hc Hw Hs. pose proof (c_cursor _ _ _ _ Hc) as Hcur.
  destruct wk as [i|i| |e]; try discriminate.
  - rewrite (resume_fetch w i p Hc Hw). unfold pending. simpl.
    pose proof (weight_insert (workers p) w _ (AwaitJson i) Hw). simpl in *. lia.
  - rewrite (resume_json w i p Hc Hw). unfold pending, enter_loop.
    destruct (decide (cursor p < N)) as [Hlt|Hge]; simpl.
    + pose proof (weight_insert (workers p) w _ (AwaitFetch (cursor p)) Hw).
      simpl in *. lia.
    + pose proof (weight_insert (workers p) w _ Done Hw). simpl in *. lia.
Qed.

(** *** Schedules *)

Lemma run_consistent (sched : list nat) (p : Pool) :
  ok_pool p -> ok_pool (run eventIds fetchEvent sched p).
Proof.
  revert p. induction sched as [|w sched IH]; intros p Hc; simpl; [exact Hc|].
  apply IH. now apply resume_consistent.
Qed.

Lemma run_pending (sched : list nat) (p : Pool) :
  ok_pool p -> productive eventIds fetchEvent sched p = true ->
  pending eventIds (run eventIds fetchEvent sched p) + length sched
    = pending eventIds p.
Proof.
  revert p. induction sched as [|w sched IH]; intros p Hc Hprod; simpl in *; [lia|].
  destruct (workers p !! w) as [wk|] eqn:Hw; [|discriminate].
  apply andb_prop in Hprod as [Hs Hprod].
  rewrite <- (resume_pending w wk p Hc Hw Hs).
  rewrite <- (IH (resume eventIds fetchEvent w p)); [lia | | exact Hprod].
  now apply resume_consistent.
Qed.

Lemma productive_snoc (sched : list nat) (w : nat) (p : Pool) :
  productive eventIds fetchEvent (sched ++ [w]) p =
    productive eventIds fetchEvent sched p
    && productive eventIds fetchEvent [w] (run eventIds fetchEvent sched p).
Proof.
  revert p. induction sched as [|v sched IH]; intros p; simpl.
  - reflexivity.
  - destruct (workers p !! v) as [wk|]; [|reflexivity].
    rewrite IH. now rewrite andb_assoc.
Qed.

(** *** Completion *)

Lemma all_done_lookup (p : @Pool Json) (w : nat) (wk : Worker) :
  all_done p = true -> workers p !! w = Some wk -> wk = Done.
Proof.
  unfold all_done. rewrite forallb_forall. intros Hall Hw.
  assert (Hin : In wk (workers p)).
  { apply list_elem_of_In, list_elem_of_lookup. eauto. }
  specialize (Hall wk Hin). now destruct wk.
Qed.

Lemma done_results (p : Pool) :
  ok_pool p -> all_done p = true -> results p = result_of <$> seq 0 N.
Proof.
  intros Hc Hall. pose proof (c_results _ _ _ _ Hc) as Hlen.
  assert (Hcur : N = 0 \/ cursor p = N).
  { destruct (decide (N = 0)) as [?|Hn]; [now left|]. right.
    destruct (lookup_lt_is_Some_2 (workers p) 0) as [wk Hwk].
    { rewrite (c_workers _ _ _ _ Hc). lia. }
    pose proof (all_done_lookup p 0 wk Hall Hwk) as ->.
    exact (c_done _ _ _ _ Hc 0 Hwk). }
  apply list_eq. intros i. rewrite list_lookup_fmap.
  destruct (decide (i < N)) as [Hi|Hi].
  - rewrite lookup_seq_lt by exact Hi. simpl.
    destruct Hcur as [?|Hcur]; [lia|].
    destruct (c_filled _ _ _ _ Hc i ltac:(lia)) as [Hr|[w [Hh|Hh]]];
      [exact Hr| |]; apply (all_done_lookup p w _ Hall) in Hh; discriminate.
  - rewrite lookup_seq_ge by lia. simpl. apply lookup_ge_None. lia.
Qed.

Lemma pending_zero_done (p : Pool) :
  ok_pool p -> pending eventIds p = 0 -> all_done p = true.
Proof.
  intros Hc Hz. unfold all_done. apply forallb_forall. intros wk Hin.
  apply list_elem_of_In, list_elem_of_lookup in Hin as [w Hw].
  assert (Hwt : weight wk = 0).
  { eapply weight_zero; [|exact Hw]. unfold pending in Hz. lia. }
  destruct wk as [i|i| |e]; simpl in *; try lia; try reflexivity.
  now apply (c_no_failure _ _ _ _ Hc) in Hw.
Qed.

Lemma pending_progress (p : Pool) :
  ok_pool p -> 0 < pending eventIds p ->
  exists w, productive eventIds fetchEvent [w] p = true.
Proof.
  intros Hc Hpos.
  assert (Hsome : exists w wk, workers p !! w = Some wk /\ suspended wk = true).
  { destruct (decide (0 < sum_list_with weight (workers p))) as [Hw|Hw].
    { now apply weight_positive. }
    exfalso. unfold pending in Hpos.
    assert (Hn : cursor p < N) by lia.
    destruct (lookup_lt_is_Some_2 (workers p) 0) as [wk Hwk].
    { rewrite (c_workers _ _ _ _ Hc). lia. }
    assert (Hwt : weight wk = 0) by (apply (weight_zero (workers p) 0 wk); [lia | exact Hwk]).
    destruct wk as [i|i| |e]; simpl in *; try lia.
    - pose proof (c_done _ _ _ _ Hc 0 Hwk). lia.
    - now apply (c_no_failure _ _ _ _ Hc) in Hwk. }
  destruct Hsome as (w & wk & Hw & Hs). exists w. simpl. now rewrite Hw, Hs.
Qed.

(** *** What the handler's [await] sees when every task succeeds *)

Lemma done_weight (l : list Worker) :
  forallb is_done l = true -> sum_list_with weight l = 0.
Proof.
  induction l as [|wk l IH]; simpl; [reflexivity|].
  intros Hd. apply andb_prop in Hd as [Hwk Hl].
  rewrite (IH Hl). now destruct wk.
Qed.

Lemma all_done_pending (p : Pool) :
  ok_pool p -> all_done p = true -> pending eventIds p = 0.
Proof.
  intros Hc Hall. unfold pending. rewrite (done_weight _ Hall).
  destruct (decide (N = 0)) as [Hn|Hn]; [lia|].
  destruct (lookup_lt_is_Some_2 (workers p) 0) as [wk Hwk].
  { rewrite (c_workers _ _ _ _ Hc). lia. }
  pose proof (all_done_lookup p 0 wk Hall Hwk) as ->.
  rewrite (c_done _ _ _ _ Hc 0 Hwk). lia.
Qed.

Lemma await_all_productive (sched : list nat) (p : Pool) :
  ok_pool p ->
  productive eventIds fetchEvent sched p = true ->
  length sched = pending eventIds p ->
  await_all eventIds fetchEvent sched p = Some (Returned (result_of <$> seq 0 N)).
Proof.
  revert p. induction sched as [|w sched IH]; intros p Hc Hprod Hlen.
  - simpl in *. rewrite (pending_zero_done p Hc) by lia.
    now rewrite (done_results p Hc) by (apply pending_zero_done; [exact Hc | lia]).
  - cbn [await_all]. destruct (all_done p) eqn:Hall.
    { pose proof (all_done_pending p Hc Hall). simpl in Hlen. lia. }
    simpl in Hprod. destruct (workers p !! w) as [wk|] eqn:Hw; [|discriminate].
    apply andb_prop in Hprod as [Hs Hprod].
    pose proof (resume_consistent w p Hc) as Hc'.
    pose proof (resume_pending w wk p Hc Hw Hs) as Hpend.
    rewrite IH by (assumption || (simpl in Hlen; lia)).
    destruct (workers (resume eventIds fetchEvent w p) !! w) as [[i|i| |e]|] eqn:Hw';
      try reflexivity.
    now apply (c_no_failure _ _ _ _ Hc') in Hw'.
Qed.

(** C8: for every ordered list of N fetch tasks that all succeed and every
    concurrency limit K (positive, as the handler's CONCURRENCY = 5 is),
    the fan-out spawns exactly min(K, N) workers; in whatever order the
    event loop resumes them, what is sent once all workers have finished
    is an N-length list whose entry i is the result of task i; resuming
    only suspended workers, all workers have finished after exactly 2N
    resumptions, and before that some worker can always be resumed; for
    N = 0 no worker is spawned and the empty list is sent. *)
Theorem C8_fan_out_ordered_results (sched : list nat) :
  length (workers start) = Nat.min K N /\
  (forall rs,
     sent (run eventIds fetchEvent sched start) = Some rs ->
     length rs = N /\
     forall i, i < N ->
       exists data, result_of i = Some data /\ rs !! i = Some (Some data)) /\
  (productive eventIds fetchEvent sched start = true ->
     length sched <= 2 * N /\
     (length sched = 2 * N ->
      sent (run eventIds fetchEvent sched start) = Some (result_of <$> seq 0 N)) /\
     (length sched < 2 * N ->
      exists w, productive eventIds fetchEvent (sched ++ [w]) start = true)) /\
  (N = 0 -> workers start = [] /\ sent start = Some []).
Proof.
  pose proof spawn_consistent as Hstart.
  pose proof (run_consistent sched start Hstart) as Hrun.
  split; [|split; [|split]].
  - exact (c_workers _ _ _ _ Hstart).
  - intros rs Hsent. unfold sent in Hsent.
    destruct (all_done (run eventIds fetchEvent sched start)) eqn:Hall;
      [|discriminate].
    injection Hsent as <-. rewrite (done_results _ Hrun Hall).
    split; [now rewrite length_fmap, length_seq|].
    intros i Hi. destruct (task_ok i Hi) as (resp & data & _ & _ & _ & Hd).
    exists data. split; [exact Hd|].
    now rewrite list_lookup_fmap, lookup_seq_lt, <- Hd by exact Hi.
  - intros Hprod. pose proof (run_pending sched start Hstart Hprod) as Hpend.
    rewrite spawn_pending in Hpend. split; [lia|]. split.
    + intros Hlen. unfold sent.
      rewrite (pending_zero_done _ Hrun) by lia.
      now rewrite (done_results _ Hrun) by (apply pending_zero_done; [exact Hrun | lia]).
    + intros Hlen. destruct (pending_progress _ Hrun ltac:(lia)) as [w Hw].
      exists w. now rewrite productive_snoc, Hprod, Hw.
  - intros Hn. rewrite spawn_claims. unfold sent, all_done. simpl.
    rewrite Hn, Nat.min_0_r. simpl. auto.
Qed.

End Executor.

(** *** Whatever the upstream answers *)

Section AnyUpstream.

Context {Json EvId : Type}.
Variable eventIds : list EvId.
Variable fetchEvent : nat -> option EvId -> FetchResult Json.
Variable K : nat.

Hypothesis K_positive : 0 < K.

Local Abbreviation N := (length eventIds).
Local Abbreviation result_of := (task_result eventIds fetchEvent).
Local Abbreviation sound_pool := (sound eventIds fetchEvent K).
Local Abbreviation start := (spawn (Json:=Json) eventIds K).

Lemma holds_same_worker (p : @Pool Json) (w i j : nat) :
  holds p w i -> holds p w j -> i = j.
Proof. unfold holds. intros [Hi|Hi] [Hj|Hj]; rewrite Hi in Hj; congruence. Qed.

Lemma holds_insert_other (p : @Pool Json) (c : nat) (rs : list (option Json))
    (w w' i : nat) (wk : Worker) :
  w' <> w -> holds p w' i ->
  holds {| cursor := c; results := rs; workers := <[w := wk]> (workers p) |} w' i.
Proof.
  unfold holds. simpl. intros Hne Hh.
  now rewrite list_lookup_insert_ne by congruence.
Qed.

Lemma spawn_sound : sound_pool start.
Proof.
  split.
  - rewrite (spawn_claims eventIds K K_positive). simpl. apply length_replicate.
  - rewrite (spawn_claims eventIds K K_positive). simpl. lia.
  - rewrite (spawn_claims eventIds K K_positive). simpl. now rewrite length_fmap, length_seq.
  - intros w i [Hw|Hw]; apply (spawn_lookup eventIds K K_positive) in Hw as [Hw Hlt];
      inversion Hw; subst; rewrite (spawn_claims eventIds K K_positive); simpl; lia.
  - intros w w' i [Hw|Hw] [Hw'|Hw'];
      apply (spawn_lookup eventIds K K_positive) in Hw as [Hw _]; apply (spawn_lookup eventIds K K_positive) in Hw' as [Hw' _];
      congruence.
  - intros w i [Hw|Hw]; apply (spawn_lookup eventIds K K_positive) in Hw as [Hw Hlt];
      inversion Hw; subst. rewrite (spawn_claims eventIds K K_positive). simpl.
    apply lookup_replicate_2. lia.
  - intros i Hi. rewrite (spawn_claims eventIds K K_positive). simpl. apply lookup_replicate_2. lia.
  - intros w i Hw. apply (spawn_lookup eventIds K K_positive) in Hw as [Hw _]. discriminate.
  - intros i data. rewrite (spawn_claims eventIds K K_positive). simpl. intros Hr.
    apply lookup_replicate in Hr as [Hr _]. discriminate.
  - intros i Hi. right; left. exists i. left.
    rewrite (spawn_claims eventIds K K_positive) in *. simpl in *.
    rewrite list_lookup_fmap, lookup_seq_lt by lia. reflexivity.
  - intros w e Hw. apply (spawn_lookup eventIds K K_positive) in Hw as [Hw _]. discriminate.
  - intros w Hw. apply (spawn_lookup eventIds K K_positive) in Hw as [Hw _]. discriminate.
Qed.

(** The worker that holds [i] moves on to its [json()] or throws. *)
Lemma sound_settle (w i : nat) (next : Worker) (p : Pool) :
  sound_pool p ->
  holds p w i ->
  (next = AwaitJson i /\
   exists resp, fetchEvent i (eventIds !! i) = Fetched resp /\ resp_ok resp = true) \/
  (exists e, next = Failed e /\ result_of i = None) ->
  sound_pool {| cursor := cursor p; results := results p;
                workers := <[w := next]> (workers p) |}.
Proof.
  intros Hs Hw Hnext.
  pose proof Hs as [Hres Hcur Hws Hheld Huniq Hempty Hfresh Hjson Hslot Hfilled
                      Hfailed Hdone].
  assert (Hwlt : w < length (workers p)).
  { destruct Hw as [Hw|Hw]; eapply lookup_lt_Some; eauto. }
  assert (Hnh : forall j, next = AwaitFetch j \/ next = AwaitJson j -> j = i).
  { intros j [Hj|Hj]; destruct Hnext as [[-> _]|(e & -> & _)]; congruence. }
  split; simpl; try assumption.
  - now rewrite length_insert.
  - intros w' j Hh. apply holds_insert in Hh as [[-> Hj]|[_ Hh]]; [|eauto].
    rewrite (Hnh j Hj). eauto.
  - intros w1 w2 j H1 H2.
    apply holds_insert in H1 as [[-> Hj1]|[Hne1 H1]];
      apply holds_insert in H2 as [[-> Hj2]|[Hne2 H2]]; try reflexivity.
    + rewrite (Hnh j Hj1) in H2. exfalso. apply Hne2. eauto.
    + rewrite (Hnh j Hj2) in H1. exfalso. apply Hne1. eauto.
    + eauto.
  - intros w' j Hh. apply holds_insert in Hh as [[-> Hj]|[_ Hh]]; [|eauto].
    rewrite (Hnh j Hj). eauto.
  - intros w' j Hj. apply list_lookup_insert_Some in Hj as [(_ & Hj & _)|[_ Hj]];
      [|eauto].
    destruct Hnext as [[-> Hev]|(e & -> & _)]; [|discriminate].
    injection Hj as <-. exact Hev.
  - intros j Hj. destruct (Hfilled j Hj) as [Hd|[[w0 Hh]|(w0 & e0 & Hf)]].
    + now left.
    + destruct (decide (w0 = w)) as [->|Hne].
      * rewrite (holds_same_worker p w j i Hh Hw).
        destruct Hnext as [[-> _]|(e & -> & _)].
        -- right; left. exists w. right. simpl. now apply list_lookup_insert_eq.
        -- right; right. exists w, e. now apply list_lookup_insert_eq.
      * right; left. exists w0. now apply holds_insert_other.
    + right; right. exists w0, e0. rewrite list_lookup_insert_ne; [exact Hf|].
      intros ->. destruct Hw as [Hw|Hw]; congruence.
  - intros w' e Hf. apply list_lookup_insert_Some in Hf as [(_ & Hf & _)|[_ Hf]];
      [|eauto].
    destruct Hnext as [[-> _]|(e' & -> & Hnone)]; [discriminate|].
    exists i. split; [|exact Hnone]. specialize (Hheld w i Hw). lia.
  - intros w' Hd. apply list_lookup_insert_Some in Hd as [(_ & Hd & _)|[_ Hd]];
      [|eauto].
    destruct Hnext as [[-> _]|(e' & -> & _)]; discriminate.
Qed.

(** The worker at its [json()] stores the data and goes round the loop. *)
Lemma sound_store (w i : nat) (data : Json) (p : Pool) :
  sound_pool p ->
  workers p !! w = Some (AwaitJson i) ->
  result_of i = Some data ->
  sound_pool {| cursor := fst (enter_loop eventIds (cursor p));
                results := <[i := Some data]> (results p);
                workers := <[w := snd (enter_loop eventIds (cursor p))]> (workers p) |}.
Proof.
  intros Hs Hw Hdata.
  pose proof Hs as [Hres Hcur Hws Hheld Huniq Hempty Hfresh Hjson Hslot Hfilled
                      Hfailed Hdone].
  assert (Hwlt : w < length (workers p)) by (eapply lookup_lt_Some; eauto).
  assert (Hwi : holds p w i) by now right.
  assert (Hi : i < cursor p) by eauto.
  assert (Hother : forall w' j, w' <> w -> holds p w' j -> j <> i).
  { intros w' j Hne Hh ->. apply Hne. eauto. }
  unfold enter_loop. destruct (decide (cursor p < N)) as [Hlt|Hge]; simpl.
  - split; simpl.
    + now rewrite length_insert.
    + lia.
    + now rewrite length_insert.
    + intros w' j Hh. apply holds_insert in Hh as [[-> Hj]|[_ Hh]].
      * destruct Hj as [Hj|Hj]; inversion Hj; subst; lia.
      * specialize (Hheld _ _ Hh). lia.
    + intros w1 w2 j H1 H2.
      apply holds_insert in H1 as [[-> Hj1]|[Hne1 H1]];
        apply holds_insert in H2 as [[-> Hj2]|[Hne2 H2]]; try reflexivity.
      * destruct Hj1 as [Hj1|Hj1]; inversion Hj1; subst.
        specialize (Hheld _ _ H2). lia.
      * destruct Hj2 as [Hj2|Hj2]; inversion Hj2; subst.
        specialize (Hheld _ _ H1). lia.
      * eauto.
    + intros w' j Hh. apply holds_insert in Hh as [[-> Hj]|[Hne Hh]].
      * destruct Hj as [Hj|Hj]; inversion Hj; subst.
        rewrite list_lookup_insert_ne by lia. apply Hfresh. lia.
      * rewrite list_lookup_insert_ne by (intros ->; now apply (Hother w' j)).
        eauto.
    + intros j Hj. rewrite list_lookup_insert_ne by lia. apply Hfresh. lia.
    + intros w' j Hj. apply list_lookup_insert_Some in Hj as [(_ & Hj & _)|[_ Hj]];
        [discriminate | eauto].
    + intros j d Hj. apply list_lookup_insert_Some in Hj as [(-> & Hj & _)|[_ Hj]];
        [congruence | eauto].
    + intros j Hj. destruct (decide (j = i)) as [->|Hji].
      { left. exists data. apply list_lookup_insert_eq. lia. }
      destruct (decide (j = cursor p)) as [->|Hjc].
      { right; left. exists w. left. simpl. now apply list_lookup_insert_eq. }
      destruct (Hfilled j ltac:(lia)) as [[d Hd]|[[w0 Hh]|(w0 & e0 & Hf)]].
      * left. exists d. now rewrite list_lookup_insert_ne by congruence.
      * right; left. exists w0. apply holds_insert_other; [|exact Hh].
        intros ->. apply Hji. eapply holds_same_worker; eauto.
      * right; right. exists w0, e0. rewrite list_lookup_insert_ne; [exact Hf|].
        intros ->. congruence.
    + intros w' e Hf. apply list_lookup_insert_Some in Hf as [(_ & Hf & _)|[_ Hf]];
        [discriminate | eauto].
    + intros w' Hd. apply list_lookup_insert_Some in Hd as [(_ & Hd & _)|[_ Hd]];
        [discriminate|]. specialize (Hdone _ Hd). lia.
  - split; simpl.
    + now rewrite length_insert.
    + lia.
    + now rewrite length_insert.
    + intros w' j Hh. apply holds_insert in Hh as [[-> Hj]|[_ Hh]]; [|eauto].
      destruct Hj as [Hj|Hj]; inversion Hj.
    + intros w1 w2 j H1 H2.
      apply holds_insert in H1 as [[-> Hj1]|[Hne1 H1]];
        apply holds_insert in H2 as [[-> Hj2]|[Hne2 H2]]; try reflexivity.
      * destruct Hj1 as [Hj1|Hj1]; inversion Hj1.
      * destruct Hj2 as [Hj2|Hj2]; inversion Hj2.
      * eauto.
    + intros w' j Hh. apply holds_insert in Hh as [[-> Hj]|[Hne Hh]].
      * destruct Hj as [Hj|Hj]; inversion Hj.
      * rewrite list_lookup_insert_ne by (intros ->; now apply (Hother w' j)).
        eauto.
    + intros j Hj. rewrite list_lookup_insert_ne by lia. apply Hfresh. lia.
    + intros w' j Hj. apply list_lookup_insert_Some in Hj as [(_ & Hj & _)|[_ Hj]];
        [discriminate | eauto].
    + intros j d Hj. apply list_lookup_insert_Some in Hj as [(-> & Hj & _)|[_ Hj]];
        [congruence | eauto].
    + intros j Hj. destruct (decide (j = i)) as [->|Hji].
      { left. exists data. apply list_lookup_insert_eq. lia. }
      destruct (Hfilled j Hj) as [[d Hd]|[[w0 Hh]|(w0 & e0 & Hf)]].
      * left. exists d. now rewrite list_lookup_insert_ne by congruence.
      * right; left. exists w0. apply holds_insert_other; [|exact Hh].
        intros ->. apply Hji. eapply holds_same_worker; eauto.
      * right; right. exists w0, e0. rewrite list_lookup_insert_ne; [exact Hf|].
        intros ->. congruence.
    + intros w' e Hf. apply list_lookup_insert_Some in Hf as [(_ & Hf & _)|[_ Hf]];
        [discriminate | eauto].
    + intros w' Hd. lia.
Qed.

Lemma resume_sound (w : nat) (p : Pool) :
  sound_pool p -> sound_pool (resume eventIds fetchEvent w p).
Proof.
  intros Hs. unfold resume.
  destruct (workers p !! w) as [[i|i| |e]|] eqn:Hw; try exact Hs.
  - assert (Hwi : holds p w i) by now left.
    apply (sound_settle w i _ p Hs Hwi).
    unfold task_result.
    destruct (fetchEvent i (eventIds !! i)) as [resp|]; [|right; eauto].
    destruct (resp_ok resp) eqn:Hok; [left; eauto | right; eauto].
  - assert (Hwi : holds p w i) by now right.
    destruct (s_json _ _ _ _ Hs w i Hw) as (resp & Hup & Hok).
    rewrite Hup. destruct resp as [st [data|]].
    + pose proof (sound_store w i data p Hs Hw) as Hst.
      unfold task_result in Hst. rewrite Hup, Hok in Hst.
      specialize (Hst eq_refl).
      now destruct (enter_loop eventIds (cursor p)).
    + apply (sound_settle w i _ p Hs Hwi). right. exists JsonError.
      split; [reflexivity|]. unfold task_result. now rewrite Hup, Hok.
Qed.

Lemma run_sound (sched : list nat) (p : Pool) :
  sound_pool p -> sound_pool (run eventIds fetchEvent sched p).
Proof.
  revert p. induction sched as [|w sched IH]; intros p Hs; simpl; [exact Hs|].
  apply IH. now apply resume_sound.
Qed.

(** X21: whatever the upstream answers and in whatever order the workers
    are resumed, the pool has min(K, N) workers, so never more than K
    fetches are in flight; no index is held by two workers; a held index
    is below the cursor and its slot is still empty; and a filled slot
    holds the data of the task of its own index. *)
Theorem X21_pool_invariant (sched : list nat) :
  let p := run eventIds fetchEvent sched start in
  length (workers p) = Nat.min K N /\
  length (workers p) <= K /\
  length (results p) = N /\
  cursor p <= N /\
  (forall w w' i, holds p w i -> holds p w' i -> w = w') /\
  (forall w i, holds p w i -> i < cursor p /\ results p !! i = Some None) /\
  (forall i data, results p !! i = Some (Some data) -> result_of i = Some data).
Proof.
  intros p. pose proof (run_sound sched start spawn_sound) as Hs. fold p in Hs.
  destruct Hs as [Hres Hcur Hws Hheld Huniq Hempty Hfresh Hjson Hslot Hfilled
                    Hfailed Hdone].
  split; [exact Hws|]. split; [lia|]. split; [exact Hres|]. split; [exact Hcur|].
  split; [exact Huniq|]. split; [|exact Hslot].
  intros w i Hh. split; eauto.
Qed.

Lemma sound_done_complete (p : Pool) :
  sound_pool p -> all_done p = true ->
  length (results p) = N /\
  forall i, i < N ->
    exists data, result_of i = Some data /\ results p !! i = Some (Some data).
Proof.
  intros Hs Hall. split; [exact (s_results _ _ _ _ Hs)|].
  assert (Hcur : N = 0 \/ cursor p = N).
  { destruct (decide (N = 0)) as [?|Hn]; [now left|]. right.
    destruct (lookup_lt_is_Some_2 (workers p) 0) as [wk Hwk].
    { rewrite (s_workers _ _ _ _ Hs). lia. }
    pose proof (all_done_lookup p 0 wk Hall Hwk) as ->.
    exact (s_done _ _ _ _ Hs 0 Hwk). }
  intros i Hi. destruct Hcur as [?|Hcur]; [lia|].
  destruct (s_filled _ _ _ _ Hs i ltac:(lia)) as [[d Hd]|[[w [Hh|Hh]]|(w & e & Hf)]].
  - exists d. split; [|exact Hd]. exact (s_slot _ _ _ _ Hs i d Hd).
  - apply (all_done_lookup p w _ Hall) in Hh. discriminate.
  - apply (all_done_lookup p w _ Hall) in Hh. discriminate.
  - apply (all_done_lookup p w _ Hall) in Hf. discriminate.
Qed.

Lemma await_all_settles (sched : list nat) (p : Pool) :
  sound_pool p ->
  match await_all eventIds fetchEvent sched p with
  | Some (Returned rs) =>
      exists p', sound_pool p' /\ all_done p' = true /\ rs = results p'
  | Some (Thrown e) =>
      exists p' w, sound_pool p' /\ workers p' !! w = Some (Failed e)
  | None => True
  end.
Proof.
  revert p. induction sched as [|w sched IH]; intros p Hs; cbn [await_all].
  - destruct (all_done p) eqn:Hall; [|exact I]. exists p. auto.
  - destruct (all_done p) eqn:Hall; [exists p; auto|].
    pose proof (resume_sound w p Hs) as Hs'.
    destruct (workers (resume eventIds fetchEvent w p) !! w) as [[i|i| |e]|] eqn:Hw;
      try (apply IH; exact Hs').
    exists (resume eventIds fetchEvent w p), w. auto.
Qed.

Lemma sound_done_complete_await (sched : list nat) (rs : list (option Json)) :
  await_all eventIds fetchEvent sched start = Some (Returned rs) ->
  length rs = N /\
  forall i, i < N ->
    exists data, result_of i = Some data /\ rs !! i = Some (Some data).
Proof.
  intros Hret. pose proof (await_all_settles sched start spawn_sound) as Hset.
  rewrite Hret in Hset. destruct Hset as (p' & Hs & Hall & ->).
  now apply sound_done_complete.
Qed.

(** X22: no partial results: when the handler's [await] resolves, under
    any schedule and whatever the upstream answers, the list has N entries
    and entry i is the data of task i, every task having succeeded; so a
    single failing task keeps the list from ever being sent. *)
Theorem X22_resolved_means_complete (sched : list nat) (rs : list (option Json)) :
  await_all eventIds fetchEvent sched start = Some (Returned rs) ->
  length rs = N /\
  forall i, i < N ->
    exists data, result_of i = Some data /\ rs !! i = Some (Some data).
Proof.
  apply sound_done_complete_await.
Qed.

(** X23: the handler's [await] rejects only when a task has really
    failed: if it rejects under some schedule, some task's fetch rejected,
    was not ok, or had a body that does not parse. *)
Theorem X23_rejected_means_task_failed (sched : list nat) (e : Error) :
  await_all eventIds fetchEvent sched start = Some (Thrown e) ->
  exists i, i < N /\ result_of i = None.
Proof.
  intros Hthr. pose proof (await_all_settles sched start spawn_sound) as Hset.
  rewrite Hthr in Hset. destruct Hset as (p' & w & Hs & Hf).
  exact (s_failed _ _ _ _ Hs w e Hf).
Qed.

End AnyUpstream.

Lemma concurrency_is_positive : 0 < CONCURRENCY.
Proof. unfold CONCURRENCY. lia. Qed.

Lemma X21_pool_invariant_witness :
  length (workers (run six_events echo [4; 4; 3] (spawn six_events CONCURRENCY))) = 5 /\
  cursor (run six_events echo [4; 4; 3] (spawn six_events CONCURRENCY)) <= 6.
Proof.
  destruct (X21_pool_invariant six_events echo CONCURRENCY concurrency_is_positive
              [4; 4; 3]) as (Hw & _ & _ & Hc & _).
  split; [exact Hw | exact Hc].
Defined.

Lemma X22_resolved_means_complete_witness :
  length (task_result six_events echo <$> seq 0 6) = 6.
Proof.
  assert (Hrun : await_all six_events echo fifth_first
                   (spawn six_events CONCURRENCY) =
                 Some (Returned (task_result six_events echo <$> seq 0 6)))
    by (vm_compute; reflexivity).
  destruct (X22_resolved_means_complete six_events echo CONCURRENCY
              concurrency_is_positive fifth_first _ Hrun) as [Hlen _].
  exact Hlen.
Defined.

Lemma X23_rejected_means_task_failed_witness :
  exists i, i < 2 /\
    task_result (GetEvents.event_ids GetEvents.two_events)
      GetEvents.second_missing i = None.
Proof.
  assert (Hrun : await_all (GetEvents.event_ids GetEvents.two_events)
                   GetEvents.second_missing [1]
                   (spawn (GetEvents.event_ids GetEvents.two_events) CONCURRENCY) =
                 Some (Thrown (FailedEvent 1)))
    by reflexivity.
  exact (X23_rejected_means_task_failed (GetEvents.event_ids GetEvents.two_events)
           GetEvents.second_missing CONCURRENCY concurrency_is_positive
           [1] (FailedEvent 1) Hrun).
Defined.

Lemma C8_fan_out_ordered_results_witness :
  length (workers (spawn (Json:=nat * option nat) six_events CONCURRENCY)) = 5 /\
  sent (run six_events echo fifth_first (spawn six_events CONCURRENCY)) =
    Some (task_result six_events echo <$> seq 0 6).
Proof.
  destruct (C8_fan_out_ordered_results six_events echo CONCURRENCY) with
    (sched := fifth_first) as (Hspawn & _ & Hprod & _).
  - unfold CONCURRENCY. lia.
  - intros i _. unfold task_result, echo. simpl. eauto.
  - destruct Hprod as (_ & Hsent & _); [reflexivity|].
    split; [exact Hspawn|]. apply Hsent. reflexivity.
Defined.


End FanOutFacts.

(** ** The read path *)

Module GetEventsFacts.

Import GetEvents.

Local Open Scope nat_scope.

Lemma concurrency_positive : 0 < FanOut.CONCURRENCY.
Proof. unfold FanOut.CONCURRENCY. lia. Qed.

(** X24: a reply of the read handler is either 502 'Failed to load user',
    exactly when the user response is not ok, or 200 with the complete
    list: one entry per id of the user's events array, in the array's
    order, entry i being the data of the fetch for id i. A list with a
    missing entry is never sent. *)
Theorem X24_reply_is_502_or_complete
    (userFetch : FetchResult JValue)
    (fetchEvent : nat -> option JValue -> FetchResult JValue)
    (sched : list nat) (reply : Reply) :
  handler userFetch fetchEvent sched = Some (Returned reply) ->
  (exists userResp,
     userFetch = Fetched userResp /\ resp_ok userResp = false /\
     reply = {| code := 502; payload := ErrorBody "Failed to load user" |}) \/
  (exists userResp userData rs,
     userFetch = Fetched userResp /\ resp_ok userResp = true /\
     body userResp = Some userData /\
     reply = {| code := 200; payload := Events rs |} /\
     length rs = length (event_ids userData) /\
     forall i, i < length (event_ids userData) ->
       exists data,
         FanOut.task_result (event_ids userData) fetchEvent i = Some data /\
         rs !! i = Some (Some data)).
Proof.
  unfold handler. destruct userFetch as [userResp|]; [|discriminate].
  destruct (resp_ok userResp) eqn:Hok; simpl.
  - destruct (body userResp) as [userData|] eqn:Hbody; [|discriminate].
    destruct (FanOut.await_all (event_ids userData) fetchEvent sched _)
      as [[rs|e]|] eqn:Hawait; try discriminate.
    intros [= <-]. right. exists userResp, userData, rs.
    destruct (FanOutFacts.sound_done_complete_await (event_ids userData) fetchEvent
                FanOut.CONCURRENCY concurrency_positive sched rs Hawait) as [Hlen Hall].
    auto 10.
  - intros [= <-]. left. exists userResp. auto.
Qed.

(** X25: when the user response is ok but the user has no events array
    (the body is not an object, has no 'events' property, or the property
    is not an array) or the array is empty, the handler replies 200 with
    the empty list at once, whatever the event upstream would answer. *)
Theorem X25_no_events_empty_list
    (userResp : Response JValue) (userData : JValue)
    (fetchEvent : nat -> option JValue -> FetchResult JValue) (sched : list nat) :
  resp_ok userResp = true ->
  body userResp = Some userData ->
  event_ids userData = [] ->
  handler (Fetched userResp) fetchEvent sched =
    Some (Returned {| code := 200; payload := Events [] |}).
Proof.
  intros Hok Hbody Hids. unfold handler. rewrite Hok, Hbody. simpl. rewrite Hids.
  destruct sched; reflexivity.
Qed.

Lemma event_ids_not_array (userData : JValue) :
  (forall fields items,
     userData = JObject fields -> property "events" fields <> Some (JArray items)) ->
  event_ids userData = [].
Proof.
  intros Hno. destruct userData as [| | | | |fields]; try reflexivity. simpl.
  destruct (property "events" fields) as [[| | | |items|]|] eqn:Hp; try reflexivity.
  exfalso. exact (Hno fields items eq_refl Hp).
Qed.

(** X26: when the user response is ok and every event fetch succeeds, the
    handler replies 200 with the data of the events in the order of the
    user's events array, as soon as the workers have been resumed 2N
    times, in whatever order. *)
Theorem X26_all_events_in_order
    (userResp : Response JValue) (userData : JValue)
    (fetchEvent : nat -> option JValue -> FetchResult JValue) (sched : list nat) :
  resp_ok userResp = true ->
  body userResp = Some userData ->
  FanOut.all_succeed (event_ids userData) fetchEvent ->
  FanOut.productive (event_ids userData) fetchEvent sched
    (FanOut.spawn (event_ids userData) FanOut.CONCURRENCY) = true ->
  length sched = 2 * length (event_ids userData) ->
  handler (Fetched userResp) fetchEvent sched =
    Some (Returned
      {| code := 200;
         payload := Events (FanOut.task_result (event_ids userData) fetchEvent
                              <$> seq 0 (length (event_ids userData))) |}).
Proof.
  intros Hok Hbody Hall Hprod Hlen. unfold handler. rewrite Hok, Hbody. simpl.
  rewrite (FanOutFacts.await_all_productive (event_ids userData) fetchEvent
             FanOut.CONCURRENCY concurrency_positive Hall sched).
  - reflexivity.
  - apply FanOutFacts.spawn_consistent;
      first [exact concurrency_positive | exact Hall].
  - exact Hprod.
  - rewrite FanOutFacts.spawn_pending by exact concurrency_positive. exact Hlen.
Qed.

Lemma X25_no_events_empty_list_witness :
  handler (user_200 (JObject [("id", JNumber "7")])) second_missing [0; 1] =
    Some (Returned {| code := 200; payload := Events [] |}).
Proof.
  apply (X25_no_events_empty_list _ (JObject [("id", JNumber "7")])).
  - reflexivity.
  - reflexivity.
  - reflexivity.
Defined.

Lemma X26_all_events_in_order_witness :
  handler (user_200 two_events) event_echo [1; 0; 0; 1] =
    Some (Returned
      {| code := 200;
         payload := Events [Some (JNumber "11"); Some (JNumber "12")] |}).
Proof.
  unfold user_200.
  rewrite (X26_all_events_in_order _ two_events event_echo [1; 0; 0; 1]).
  - reflexivity.
  - reflexivity.
  - reflexivity.
  - intros i Hi. simpl in Hi.
    destruct i as [|[|i]]; [eexists; reflexivity | eexists; reflexivity | lia].
  - reflexivity.
  - reflexivity.
Defined.

Lemma X24_reply_is_502_or_complete_witness :
  exists rs,
    handler (user_200 two_events) event_echo [1; 0; 0; 1] =
      Some (Returned {| code := 200; payload := Events rs |}) /\
    length rs = 2.
Proof.
  destruct (X24_reply_is_502_or_complete (user_200 two_events) event_echo
              [1; 0; 0; 1]
              {| code := 200;
                 payload := Events [Some (JNumber "11"); Some (JNumber "12")] |}
              eq_refl)
    as [(userResp & _ & _ & Hreply)|(userResp & userData & rs & Hu & _ & Hb & Hreply & Hlen & _)].
  - discriminate.
  - injection Hreply as <-. exists [Some (JNumber "11"); Some (JNumber "12")].
    split; reflexivity.
Defined.

End GetEventsFacts.
